(** * ast-latex: the expression pipeline of [expr.py] and [ast.py]

    A shallow embedding of the two Python modules: the lookup tables, the
    tokenizer and the shunting-yard converter of [expr.py], and the node
    graph, the cursor insertion, the traversals, the evaluator and the clone
    of [ast.py].

    Conventions of the embedding.
    - A Python [str] is a Rocq [string]; where the source indexes or slices
      it, it is viewed as its list of characters.  Characters are the code
      points below 256.
    - A Python exception is a value of [exn]; code that may raise returns a
      [result].  A [while] loop that the source does not bound is run with a
      step budget, and [OutOfFuel] reports that the budget was used up; the
      theorems show where that cannot happen.  A recursion of the source is
      cut off by the interpreter's recursion limit, where it raises
      [RecursionError].
    - Objects ([node]) live in a store addressed by position, so that two
      references to one object are one address; [BadRef] reports an address
      outside the store, which no Python state has. *)

From Stdlib Require Import ZArith String Ascii.
From stdpp Require Import base option list strings.

Open Scope string_scope.
Open Scope list_scope.
Open Scope nat_scope.

(** ** Exceptions and results *)

Module Py.

Inductive exn : Set :=
| AttributeError
| IndexError
| KeyError
| TypeError
| RecursionError.

Inductive result (A : Type) : Type :=
| Ok (a : A)
| Raise (e : exn)
| OutOfFuel
| BadRef.

Arguments Ok {A} a.
Arguments Raise {A} e.
Arguments OutOfFuel {A}.
Arguments BadRef {A}.

#[export] Instance result_ret : MRet result := fun _ a => Ok a.

#[export] Instance result_bind : MBind result := fun _ _ k m =>
  match m with
  | Ok a => k a
  | Raise e => Raise e
  | OutOfFuel => OutOfFuel
  | BadRef => BadRef
  end.

Definition is_ok {A} (r : result A) : bool :=
  match r with Ok _ => true | _ => false end.

(** [l[i]] for a non-negative index. *)
Definition getitem {A} (l : list A) (i : nat) : result A :=
  match l !! i with
  | Some x => Ok x
  | None => Raise IndexError
  end.

(** [d[k]] for a dict written as its list of items. *)
Fixpoint dict_get {V} (d : list (string * V)) (k : string) : result V :=
  match d with
  | [] => Raise KeyError
  | (k', v) :: d' => if String.eqb k k' then Ok v else dict_get d' k
  end.

(** [k in d]. *)
Definition dict_mem {V} (d : list (string * V)) (k : string) : bool :=
  existsb (fun kv => String.eqb k kv.1) d.

(** [e[a:b]] for non-negative bounds; empty when [b <= a]. *)
Definition slice {A} (l : list A) (a b : nat) : list A :=
  take (b - a) (drop a l).

End Py.

Import Py.

(** ** [expr.py] *)

Module Expr.

(** [_RIGHT, _LEFT = 0,1] *)
Definition _RIGHT : Z := 0.
Definition _LEFT : Z := 1.

(** [_Op = namedtuple('Op', ['precedence', 'associativity'])] *)
Record Op : Set := _Op { precedence : Z; associativity : Z }.

Definition _OPS : list (string * Op) :=
  [ ("^", _Op 4 _RIGHT);
    ("*", _Op 3 _LEFT);
    ("/", _Op 3 _LEFT);
    ("+", _Op 2 _LEFT);
    ("-", _Op 2 _LEFT) ].

(** A value of the two mapper dicts: a two-parameter lambda, named here by
    its body, or [None]. *)
Inductive callee : Set := Lambda2 (body : string) | NoneObj.

Definition basic_opeartors_mapper : list (string * callee) :=
  [ ("+", Lambda2 "x+y");
    ("-", Lambda2 "x-y");
    ("*", Lambda2 "x*y");
    ("/", Lambda2 "x/y");
    ("^", Lambda2 "x**y") ].

Definition function_mapper : list (string * callee) :=
  [ ("max", Lambda2 "max(x, y)");
    ("min", Lambda2 "min(x, y)");
    ("sin", NoneObj) ].

(** [class token]; the constructor defaults every flag to [False]. *)
Module token.
Record t : Set := mk {
  sym : string;
  is_num : bool;
  is_func : bool;
  is_dummy : bool;
  is_oper : bool;
  is_leftb : bool;
  is_rightb : bool
}.
End token.

Definition tok_num (s : string) : token.t := token.mk s true false false false false false.
Definition tok_func (s : string) : token.t := token.mk s false true false false false false.
Definition tok_dummy (s : string) : token.t := token.mk s false false true false false false.
Definition tok_oper (s : string) : token.t := token.mk s false false false true false false.
Definition tok_leftb (s : string) : token.t := token.mk s false false false false true false.
Definition tok_rightb (s : string) : token.t := token.mk s false false false false false true.

(** [has_precedence(a, b)], with Python's short-circuit order of the
    subscripts: [_OPS[b]] is read first, [_OPS[a]] only when the
    associativity test before it holds. *)
Definition has_precedence (a b : string) : result bool :=
  ob ← dict_get _OPS b;
  c1 ← (if (associativity ob =? _RIGHT)%Z
        then oa ← dict_get _OPS a; mret (precedence oa >? precedence ob)%Z
        else mret false);
  if c1 : bool then mret true
  else
    if (associativity ob =? _LEFT)%Z
    then oa ← dict_get _OPS a; mret (precedence oa >=? precedence ob)%Z
    else mret false.

(** [is_symbol(s)]: [s in basic_opeartors_mapper]. *)
Definition is_symbol (s : string) : bool := dict_mem basic_opeartors_mapper s.

(** What a predicate of this module hands back: a [bool], or [None] when
    the body falls off its end. *)
Inductive pyval : Set := PyNone | PyBool (b : bool).

Definition truthy (v : pyval) : bool :=
  match v with PyNone => false | PyBool b => b end.

(** [is_func(s)]: the body is [pass]. *)
Definition is_func (s : string) : pyval := PyNone.

(** [is_digit(s)]: [s in "1234567890"], for a one-character [s]. *)
Definition is_digit (c : ascii) : bool :=
  existsb (Ascii.eqb c) (list_ascii_of_string "1234567890").

(** [is_letter(s)]: [s.isalpha()], for a one-character [s]: the letters of
    the code points below 256. *)
Definition is_letter (c : ascii) : bool :=
  let n := nat_of_ascii c in
  ((65 <=? n) && (n <=? 90) || (97 <=? n) && (n <=? 122)
   || (n =? 170) || (n =? 181) || (n =? 186)
   || (192 <=? n) && (n <=? 214) || (216 <=? n) && (n <=? 246)
   || (248 <=? n) && (n <=? 255))%nat.

(** [_func_regex()]: the pattern is the alternation of the keys of
    [function_mapper] in dict order; a "(" in a key is escaped, so every
    alternative matches literally. *)
Definition _func_regex : list (list ascii) :=
  map (fun kv => list_ascii_of_string kv.1) function_mapper.

Fixpoint starts_with (p s : list ascii) : bool :=
  match p, s with
  | [], _ => true
  | a :: p', b :: s' => Ascii.eqb a b && starts_with p' s'
  | _ :: _, [] => false
  end.

(** The length matched at the head of [s]: the first alternative that
    matches wins. *)
Definition match_here (r : list (list ascii)) (s : list ascii) : option nat :=
  length <$> find (fun p => starts_with p s) r.

(** [reg.finditer(e)] for such a pattern: the non-overlapping matches from
    left to right, each as (start, end).  [skip] characters of the last
    match are still to be passed over. *)
Fixpoint finditer (r : list (list ascii)) (skip pos : nat) (s : list ascii)
  : list (nat * nat) :=
  match s with
  | [] => []
  | _ :: s' =>
      match skip with
      | S k => finditer r k (S pos) s'
      | O =>
          match match_here r s with
          | Some n => (pos, pos + n) :: finditer r (n - 1) (S pos) s'
          | None => finditer r 0 (S pos) s'
          end
      end
  end.

(** [_match_regex(r, e)]: the list of starts and the list of ends. *)
Definition _match_regex (r : list (list ascii)) (e : list ascii)
  : list nat * list nat :=
  let ms := finditer r 0 0 e in (ms.*1, ms.*2).

(** The characters consumed by [while index < len(e) and p(e[index])],
    read from the text that starts at [index]. *)
Fixpoint run (p : ascii -> bool) (s : list ascii) : list ascii :=
  match s with
  | c :: s' => if p c then c :: run p s' else []
  | [] => []
  end.

Definition str (cs : list ascii) : string := string_of_list_ascii cs.

(** The state of the loop of [tokenize]. *)
Record tstate : Set := mk_tstate {
  index : nat;
  eindex : nat;
  tresult : list token.t
}.

(** One turn of [while index < len(e)] in [tokenize]. *)
Definition tokenize_body (e : list ascii) (starts ends : list nat) (st : tstate)
  : result tstate :=
  let i := index st in
  if bool_decide (i ∈ starts) then
    en ← getitem ends (eindex st);
    mret (mk_tstate en (S (eindex st)) (tresult st ++ [tok_func (str (slice e i en))]))
  else
    t ← getitem e i;
    if is_digit t then
      let d := run is_digit (drop i e) in
      mret (mk_tstate (i + length d - 1 + 1) (eindex st) (tresult st ++ [tok_num (str d)]))
    else if is_letter t then
      let d := run is_letter (drop i e) in
      mret (mk_tstate (i + length d - 1 + 1) (eindex st) (tresult st ++ [tok_dummy (str d)]))
    else if Ascii.eqb t "(" then
      mret (mk_tstate (i + 1) (eindex st) (tresult st ++ [tok_leftb (str [t])]))
    else if Ascii.eqb t ")" then
      mret (mk_tstate (i + 1) (eindex st) (tresult st ++ [tok_rightb (str [t])]))
    else if is_symbol (str [t]) then
      mret (mk_tstate (i + 1) (eindex st) (tresult st ++ [tok_oper (str [t])]))
    else
      mret (mk_tstate (i + 1) (eindex st) (tresult st)).

Fixpoint tokenize_loop (fuel : nat) (e : list ascii) (starts ends : list nat)
  (st : tstate) : result (list token.t) :=
  if (index st <? length e)%nat then
    match fuel with
    | O => OutOfFuel
    | S fuel' =>
        st' ← tokenize_body e starts ends st;
        tokenize_loop fuel' e starts ends st'
    end
  else mret (tresult st).

(** The step budget of the loop of [tokenize]: every turn either moves
    [index] forward or takes the next entry of [ends]. *)
Definition tokenize_fuel (e : list ascii) (starts : list nat) : nat :=
  (length starts + 1) * (length e + 1).

(** [tokenize(e)] *)
Definition tokenize (e : string) : result (list token.t) :=
  let cs := list_ascii_of_string e in
  let '(starts, ends) := _match_regex _func_regex cs in
  tokenize_loop (tokenize_fuel cs starts) cs starts ends (mk_tstate 0 0 []).

(** [l.pop()] on a list whose last element is the head of the model. *)
Definition pop {A} (l : list A) : result (A * list A) :=
  match l with
  | [] => Raise IndexError
  | x :: l' => Ok (x, l')
  end.

(** The operator stack [op] of [postfix] is kept top first: [op[-1]] is the
    head.  The output [q] is in source order.

    [while len(op) > 0 and op[-1] != "(" and has_precedence(op[-1], s):
       q.append(op.pop())] *)
Fixpoint pop_operators (s : string) (op q : list string)
  : result (list string * list string) :=
  match op with
  | [] => mret (op, q)
  | top :: op' =>
      if String.eqb top "(" then mret (op, q)
      else
        b ← has_precedence top s;
        if b : bool then pop_operators s op' (q ++ [top]) else mret (op, q)
  end.

(** [while len(op) > 0 and op[-1] != "(": q.append(op.pop())] *)
Fixpoint pop_to_leftb (op q : list string) : list string * list string :=
  match op with
  | [] => (op, q)
  | top :: op' =>
      if String.eqb top "(" then (op, q) else pop_to_leftb op' (q ++ [top])
  end.

(** One turn of the scan of [postfix], on the pair [(q, op)]. *)
Definition postfix_step (t : token.t) (qo : list string * list string)
  : result (list string * list string) :=
  let '(q0, op) := qo in
  let q := if token.is_num t || token.is_dummy t then q0 ++ [token.sym t] else q0 in
  if token.is_leftb t then mret (q, token.sym t :: op)
  else if token.is_oper t then
    if (0 <? length op)%nat then
      '(op', q') ← pop_operators (token.sym t) op q;
      mret (q', token.sym t :: op')
    else mret (q, token.sym t :: op)
  else if token.is_rightb t then
    let '(op', q') := pop_to_leftb op q in
    '(_, op'') ← pop op';
    mret (q', op'')
  else mret (q, op).

Fixpoint postfix_scan (tokens : list token.t) (qo : list string * list string)
  : result (list string * list string) :=
  match tokens with
  | [] => mret qo
  | t :: tokens' => qo' ← postfix_step t qo; postfix_scan tokens' qo'
  end.

(** The conversion of a token list: the scan, then
    [while len(op) > 0: q.append(op.pop())]. *)
Definition postfix_tokens (tokens : list token.t) : result (list string) :=
  '(q, op) ← postfix_scan tokens ([], []);
  mret (q ++ op).

(** [postfix(e)] *)
Definition postfix (e : string) : result (list string) :=
  tokens ← tokenize e;
  postfix_tokens tokens.

End Expr.

Import Expr.

(** ** [ast.py] *)

Module Ast.

(** *** Module [expr] as [ast.py] sees it *)

(** What is bound to a name of [expr.py]: a function from a symbol to a
    truth value, a dict of callables, or an object of another kind (a
    module, a class, a constant, a function of another signature; [build]
    calls [expr.postfix], which is bound, directly). *)
Inductive attr : Type :=
| Func1 (f : string -> pyval)
| Table (d : list (string * callee))
| Other.

(** Every name bound at the top level of [expr.py], in source order. *)
Definition expr_module : list (string * attr) :=
  [ ("collections", Other);
    ("re", Other);
    ("_Op", Other);
    ("_RIGHT", Other);
    ("_LEFT", Other);
    ("_OPS", Other);
    ("basic_opeartors_mapper", Table basic_opeartors_mapper);
    ("function_mapper", Table function_mapper);
    ("token", Other);
    ("has_precedence", Other);
    ("postfix", Other);
    ("is_symbol", Func1 (fun s => PyBool (is_symbol s)));
    ("is_func", Func1 is_func);
    ("is_digit", Other);
    ("is_letter", Other);
    ("tokenize", Other);
    ("_func_regex", Other);
    ("_match_regex", Other) ].

(** [expr.name]: [AttributeError] when the module binds no such name. *)
Fixpoint getattr (m : list (string * attr)) (name : string) : result attr :=
  match m with
  | [] => Raise AttributeError
  | (k, v) :: m' => if String.eqb name k then Ok v else getattr m' name
  end.

(** [expr.name(s)] *)
Definition expr_call (name s : string) : result pyval :=
  a ← getattr expr_module name;
  match a with
  | Func1 f => mret (f s)
  | _ => Raise TypeError
  end.

(** [expr.name], read as a dict. *)
Definition expr_table (name : string) : result (list (string * callee)) :=
  a ← getattr expr_module name;
  match a with
  | Table d => mret d
  | _ => Raise TypeError
  end.

(** *** Nodes and the store *)

Abbreviation addr := nat (only parsing).

(** [class node]: the fields in the order [__init__] assigns them. *)
Module node.
Record t : Set := mk {
  sym : string;
  left : option addr;
  parent : option addr;
  right : option addr
}.
(** [node(sym, parent, left, right)] *)
Definition new (sym : string) (parent left right : option addr) : t :=
  mk sym left parent right.
Definition set_left (l : option addr) (n : t) : t :=
  mk (sym n) l (parent n) (right n).
Definition set_right (r : option addr) (n : t) : t :=
  mk (sym n) (left n) (parent n) r.
End node.

Abbreviation heap := (list node.t).

(** A new object gets the next free address. *)
Definition alloc (h : heap) (n : node.t) : heap * addr := (h ++ [n], length h).

(** Reading a field through a reference: [None] has no fields. *)
Definition load (h : heap) (r : option addr) : result node.t :=
  match r with
  | None => Raise AttributeError
  | Some a =>
      match h !! a with
      | Some n => Ok n
      | None => BadRef
      end
  end.

(** [r.left = v] and [r.right = v] *)
Definition store_left (h : heap) (r : option addr) (v : option addr) : result heap :=
  n ← load h r;
  match r with
  | Some a => mret (<[a := node.set_left v n]> h)
  | None => Raise AttributeError
  end.

Definition store_right (h : heap) (r : option addr) (v : option addr) : result heap :=
  n ← load h r;
  match r with
  | Some a => mret (<[a := node.set_right v n]> h)
  | None => Raise AttributeError
  end.

(** [class astree]: [__init__] sets both fields to [None]. *)
Record astree : Set := mk_astree {
  root : option addr;
  cur : option addr
}.

Definition astree_init : astree := mk_astree None None.

(** [x is None] *)
Definition is_None {A} (o : option A) : bool :=
  match o with None => true | Some _ => false end.

(** *** [astree.add] *)

(** [while self.cur.left is not None or expr.is_unary(self.cur.sym):
       self.cur = self.cur.parent]; the result is the cursor after it. *)
Fixpoint walk_up (fuel : nat) (h : heap) (c : option addr) : result (option addr) :=
  n ← load h c;
  go ← (if negb (is_None (node.left n)) then mret true
        else u ← expr_call "is_unary" (node.sym n); mret (truthy u));
  if go : bool then
    match fuel with
    | O => OutOfFuel
    | S fuel' => walk_up fuel' h (node.parent n)
    end
  else mret c.

(** The three-way choice of a slot under the cursor, shared by the two
    branches of [add]: the new node and the node it hangs from.  The third
    component is the cursor where the slot was found. *)
Definition attach (sym : string) (h : heap) (c : option addr)
  : result (heap * addr * option addr) :=
  n ← load h c;
  if is_None (node.right n) then
    let '(h1, a) := alloc h (node.new sym c None None) in
    h2 ← store_right h1 c (Some a);
    mret (h2, a, c)
  else
    free ← (if is_None (node.left n)
            then u ← expr_call "is_unary" (node.sym n); mret (negb (truthy u))
            else mret false);
    if free : bool then
      let '(h1, a) := alloc h (node.new sym c None None) in
      h2 ← store_left h1 c (Some a);
      mret (h2, a, c)
    else
      c' ← walk_up (S (length h)) h c;
      let '(h1, a) := alloc h (node.new sym c' None None) in
      h2 ← store_left h1 c' (Some a);
      mret (h2, a, c').

(** [astree.add(self, sym)] on the store and the tree object. *)
Definition add (sym : string) (s : heap * astree) : result (heap * astree) :=
  let '(h, t) := s in
  if is_None (root t) then
    let '(h1, a) := alloc h (node.new sym None None None) in
    mret (h1, mk_astree (Some a) (Some a))
  else
    s1 ← expr_call "is_symbol" sym;
    link ← (if truthy s1 then mret true
            else s2 ← expr_call "is_func" sym; mret (truthy s2));
    '(h2, a, c') ← attach sym h (cur t);
    if link : bool then mret (h2, mk_astree (root t) (Some a))
    else mret (h2, mk_astree (root t) c').

(** *** Traversals *)

(** [sys.getrecursionlimit()]: CPython raises [RecursionError] at a call that
    would nest deeper than this many frames.  The default is 1000, and
    neither module calls [sys.setrecursionlimit]. *)
Definition recursion_limit : nat := 1000.

(** The frames that are not left for the nodes on a path of a recursion:
    those of the caller, taken as deep as the module itself calls a query
    (the script, [main], [view]), the frame of the query, and the frames
    under the deepest node ([node.copy], the call of [node] and
    [node.__init__] in [_clone]; a single one elsewhere, for the call on
    [None], for [append] or for [max]). *)
Definition reserved_frames : nat := 7.

(** The recursion depth allowed to the helper of a query, counted in nodes
    on a path from the root: a helper that meets a node deeper than this
    raises [RecursionError].  How many frames are in use when a query is
    called depends on the caller, and by a frame or two on the version of
    the interpreter, so the exact depth at which the fault sets in is not
    fixed by the modules; the theorems rely on success only up to
    [depth_limit] and on the fault only from [recursion_limit] on. *)
Definition depth_limit : nat := recursion_limit - reserved_frames.

(** [travel] of [postorder]; the [print] calls leave no trace in the list. *)
Fixpoint travel_postorder (depth : nat) (h : heap) (n : option addr)
  (li : list string) : result (list string) :=
  if is_None n then mret li
  else
    match depth with
    | O => Raise RecursionError
    | S d =>
        nd ← load h n;
        li1 ← travel_postorder d h (node.left nd) li;
        li2 ← travel_postorder d h (node.right nd) li1;
        mret (li2 ++ [node.sym nd])
    end.

(** [astree.postorder(self)] *)
Definition postorder (s : heap * astree) : result (list string) :=
  travel_postorder depth_limit s.1 (root s.2) [].

(** The loop of [bfs]: [q] is the queue, oldest first. *)
Fixpoint bfs_loop (fuel : nat) (h : heap) (q : list (option addr))
  (s : list string) : result (list string) :=
  match q with
  | [] => mret s
  | n :: q0 =>
      match fuel with
      | O => OutOfFuel
      | S fuel' =>
          nd ← load h n;
          let s' := s ++ [node.sym nd] in
          let q1 := if is_None (node.left nd) then q0 else q0 ++ [node.left nd] in
          let q2 := if is_None (node.right nd) then q1 else q1 ++ [node.right nd] in
          bfs_loop fuel' h q2 s'
      end
  end.

(** [astree.bfs(self)]: the root is put on the queue as it is. *)
Definition bfs (s : heap * astree) : result (list string) :=
  bfs_loop (S (length s.1)) s.1 [root s.2] [].

(** *** Clone *)

(** [node.copy(self)]: [node(self.sym, self.parent, self.left, self.right)] *)
Definition node_copy (n : node.t) : node.t :=
  node.new (node.sym n) (node.parent n) (node.left n) (node.right n).

(** [_clone(n)] *)
Fixpoint _clone (depth : nat) (h : heap) (n : option addr)
  : result (heap * option addr) :=
  if is_None n then mret (h, None)
  else
    match depth with
    | O => Raise RecursionError
    | S d =>
        nd ← load h n;
        let '(h1, c) := alloc h (node_copy nd) in
        n1 ← load h1 n;
        '(h2, l) ← _clone d h1 (node.left n1);
        h3 ← store_left h2 (Some c) l;
        n3 ← load h3 n;
        '(h4, r) ← _clone d h3 (node.right n3);
        h5 ← store_right h4 (Some c) r;
        mret (h5, Some c)
    end.

(** [astree.copy(self)]: the new tree object starts from [astree()], so its
    cursor is [None]. *)
Definition copy (s : heap * astree) : result (heap * astree) :=
  '(h', r) ← _clone depth_limit s.1 (root s.2);
  mret (h', mk_astree r (cur astree_init)).

(** *** Evaluation *)

(** What [evaluate] can hand back: an [int], a [float], or an entry of a
    table. *)
Inductive value (F : Type) : Type :=
| VInt (z : Z)
| VFloat (x : F)
| VCallee (c : callee).

Arguments VInt {F} z.
Arguments VFloat {F} x.
Arguments VCallee {F} c.

Section Evaluate.

(** Floating point is left open: [F] is the type of floats, [float] is
    Python's [float(s)] and [call2] applies a lambda of the tables, named by
    its body, to two arguments. *)
Context {F : Type}.
Variable float : string -> result F.
Variable call2 : string -> value F -> value F -> result (value F).

(** [f(x)] for an entry [f] of [function_mapper]: the lambdas there take
    two arguments and [None] is not callable. *)
Definition call_unary (f : callee) (x : value F) : result (value F) :=
  match f with
  | Lambda2 _ => Raise TypeError
  | NoneObj => Raise TypeError
  end.

(** [f(left, right)] *)
Definition call_binary (f : callee) (l r : value F) : result (value F) :=
  match f with
  | Lambda2 body => call2 body l r
  | NoneObj => Raise TypeError
  end.

(** [evaluate(node)] *)
Fixpoint evaluate (depth : nat) (h : heap) (n : option addr) : result (value F) :=
  if is_None n then mret (VInt 0)
  else
    match depth with
    | O => Raise RecursionError
    | S d =>
        nd ← load h n;
        u ← expr_call "is_unary" (node.sym nd);
        if truthy u then
          t ← expr_table "function_mapper";
          f ← dict_get t (node.sym nd);
          x ← evaluate d h (node.right nd);
          call_unary f x
        else
          isn ← expr_call "is_number" (node.sym nd);
          if truthy isn then
            x ← float (node.sym nd); mret (VFloat x)
          else
            sp ← expr_call "is_special_number" (node.sym nd);
            if truthy sp then
              t ← expr_table "special_number";
              c ← dict_get t (node.sym nd);
              mret (VCallee c)
            else
              l ← evaluate d h (node.left nd);
              r ← evaluate d h (node.right nd);
              t ← expr_table "symbols";
              f ← dict_get t (node.sym nd);
              call_binary f l r
    end.

(** [astree.evaluate(self)] *)
Definition astree_evaluate (s : heap * astree) : result (value F) :=
  evaluate depth_limit s.1 (root s.2).

End Evaluate.

(** *** [build] *)

(** [e.replace(" ", "")] *)
Definition remove_spaces (e : string) : string :=
  str (filter (fun c => c ≠ " "%char) (list_ascii_of_string e)).

(** [while len(p) > 0: ast.add(p.pop())], on the symbols in the order the
    pops deliver them. *)
Fixpoint add_all (syms : list string) (s : heap * astree) : result (heap * astree) :=
  match syms with
  | [] => mret s
  | x :: syms' => s' ← add x s; add_all syms' s'
  end.

(** The tree of a postfix list, in the store [h]. *)
Definition build_postfix (h : heap) (p : list string) : result (heap * astree) :=
  add_all (reverse p) (h, astree_init).

(** [build(e)] *)
Definition build (e : string) : result (heap * astree) :=
  p ← postfix (remove_spaces e);
  build_postfix [] p.

End Ast.

(** ** Vocabulary of the specification *)

Module Spec.

(** The operator symbols. *)
Definition operators : list string := ["^"; "*"; "/"; "+"; "-"].

Inductive assoc : Set := LeftAssoc | RightAssoc.

(** The operator table as the specification gives it:
    ^ is (4, Right); * and / are (3, Left); + and - are (2, Left). *)
Definition table (s : string) : option (Z * assoc) :=
  if String.eqb s "^" then Some (4%Z, RightAssoc)
  else if String.eqb s "*" then Some (3%Z, LeftAssoc)
  else if String.eqb s "/" then Some (3%Z, LeftAssoc)
  else if String.eqb s "+" then Some (2%Z, LeftAssoc)
  else if String.eqb s "-" then Some (2%Z, LeftAssoc)
  else None.

(** The cursor of the tree points to a node whose right child is set. *)
Definition cursor_right_occupied (s : Ast.heap * Ast.astree) : bool :=
  match Ast.cur s.2 with
  | Some c =>
      match s.1 !! c with
      | Some n => negb (Ast.is_None (Ast.node.right n))
      | None => false
      end
  | None => false
  end.

(** The root of the tree points to a node whose right child is set. *)
Definition root_right_occupied (s : Ast.heap * Ast.astree) : bool :=
  match Ast.root s.2 with
  | Some r =>
      match s.1 !! r with
      | Some n => negb (Ast.is_None (Ast.node.right n))
      | None => false
      end
  | None => false
  end.

(** A character that the tokenizer has no rule for: no digit, no letter,
    no parenthesis, no operator symbol. *)
Definition unrecognised (c : ascii) : bool :=
  negb (is_digit c || is_letter c || Ascii.eqb c "(" || Ascii.eqb c ")"
        || is_symbol (str [c])).

(** The number of left-parenthesis and of right-parenthesis tokens. *)
Definition opens (toks : list token.t) : nat :=
  length (List.filter token.is_leftb toks).

Definition closes (toks : list token.t) : nat :=
  length (List.filter token.is_rightb toks).

(** Somewhere in the sequence more parentheses have been closed than
    opened. *)
Definition excess_closing (toks : list token.t) : Prop :=
  ∃ pre, pre `prefix_of` toks ∧ opens pre < closes pre.

(** No parenthesis is closed before it is opened, and some are left open at
    the end. *)
Definition excess_opening (toks : list token.t) : Prop :=
  (∀ pre, pre `prefix_of` toks -> closes pre <= opens pre) ∧
  closes toks < opens toks.

End Spec.

(** ** Invariants used in the proofs *)

Module Inv.

Import Ast.

(** No node of the store has a left child. *)
Definition lefts_free (h : heap) : Prop :=
  ∀ a n, h !! a = Some n -> node.left n = None.

(** The states that successful calls of [add] go through: the cursor is
    set exactly when the root is, and it points into the store. *)
Definition add_inv (s : heap * astree) : Prop :=
  lefts_free s.1 ∧
  match root s.2, cur s.2 with
  | None, None => True
  | Some _, Some c => is_Some (s.1 !! c)
  | _, _ => False
  end.

(** The store of a tree that is a single chain of right children over
    [syms]: node [i] holds the symbol [i], hangs from node [i-1] and has
    node [i+1] as its right child. *)
Definition spine (syms : list string) : heap :=
  imap (fun i x =>
          node.mk x None
            (match i with 0 => None | S j => Some j end)
            (if S i <? length syms then Some (S i) else None))
       syms.

(** The shape of a tree, without the parent references. *)
Inductive shape : Set :=
| Leaf
| Node (x : string) (l r : shape).

Fixpoint height (T : shape) : nat :=
  match T with
  | Leaf => 0
  | Node _ l r => S (Nat.max (height l) (height r))
  end.

(** The reference [r] is the root of a tree of shape [T] in the store [h],
    all of whose nodes have addresses below [lo]. *)
Inductive tree_in (lo : nat) (h : heap) : option addr -> shape -> Prop :=
| tree_None : tree_in lo h None Leaf
| tree_Some a n L R :
    a < lo -> h !! a = Some n ->
    tree_in lo h (node.left n) L -> tree_in lo h (node.right n) R ->
    tree_in lo h (Some a) (Node (node.sym n) L R).


(** Matches (start, end) in increasing order, without overlap, between [lo]
    and [hi]. *)
Fixpoint chain (lo : nat) (ms : list (nat * nat)) (hi : nat) : Prop :=
  match ms with
  | [] => True
  | (s, en) :: ms' => lo <= s ∧ s < en ∧ en <= hi ∧ chain en ms' hi
  end.

(** The states of the loop of [tokenize] over the text [e] with the matches
    [ms]: the matches already taken start before [index]. *)
Definition tokenize_inv (e : list ascii) (ms : list (nat * nat)) (st : tstate) : Prop :=
  index st <= length e ∧
  eindex st <= length ms ∧
  ∀ j s en, j < eindex st -> ms !! j = Some (s, en) -> s < index st.

(** The number of turns the loop of [tokenize] can still make. *)
Definition tokenize_measure (e : list ascii) (ms : list (nat * nat)) (st : tstate) : nat :=
  (length ms - eindex st) * (length e + 1) + (length e - index st).

(** The tokens that [tokenize] makes. *)
Inductive tokenizer_token : token.t -> Prop :=
| tt_num s : tokenizer_token (tok_num s)
| tt_func s : tokenizer_token (tok_func s)
| tt_dummy s : tokenizer_token (tok_dummy s)
| tt_leftb : tokenizer_token (tok_leftb "(")
| tt_rightb : tokenizer_token (tok_rightb ")")
| tt_oper s : is_symbol s = true -> tokenizer_token (tok_oper s).

(** The entries of the operator stack of [postfix]. *)
Definition stack_entry (s : string) : Prop := s = "(" ∨ is_symbol s = true.

(** The number of "(" on the operator stack. *)
Definition stack_opens (op : list string) : nat :=
  length (List.filter (String.eqb "(") op).

End Inv.

Import Inv.

(** ** More of [ast.py]: the depth and level queries *)

Module AstQueries.

Import Ast.

(** [travel] of [inorder]; the [print] calls leave no trace in the list. *)
Fixpoint travel_inorder (depth : nat) (h : heap) (n : option addr)
  (li : list string) : result (list string) :=
  if is_None n then mret li
  else
    match depth with
    | O => Raise RecursionError
    | S d =>
        nd ← load h n;
        li1 ← travel_inorder d h (node.left nd) li;
        travel_inorder d h (node.right nd) (li1 ++ [node.sym nd])
    end.

(** [astree.inorder(self)] *)
Definition inorder (s : heap * astree) : result (list string) :=
  travel_inorder depth_limit s.1 (root s.2) [].

(** [travel] of [preorder]. *)
Fixpoint travel_preorder (depth : nat) (h : heap) (n : option addr)
  (li : list string) : result (list string) :=
  if is_None n then mret li
  else
    match depth with
    | O => Raise RecursionError
    | S d =>
        nd ← load h n;
        li1 ← travel_preorder d h (node.left nd) (li ++ [node.sym nd]);
        travel_preorder d h (node.right nd) li1
    end.

(** [astree.preorder(self)] *)
Definition preorder (s : heap * astree) : result (list string) :=
  travel_preorder depth_limit s.1 (root s.2) [].

(** [_max_depth(n)] *)
Fixpoint _max_depth (depth : nat) (h : heap) (n : option addr) : result nat :=
  if is_None n then mret 0
  else
    match depth with
    | O => Raise RecursionError
    | S d =>
        nd ← load h n;
        l ← _max_depth d h (node.left nd);
        r ← _max_depth d h (node.right nd);
        mret (Nat.max l r + 1)
    end.

(** [max_depth(ast)] *)
Definition max_depth (s : heap * astree) : result nat :=
  _max_depth depth_limit s.1 (root s.2).

(** [_level_traversal] and [_level_traversal_node] are the same walk; the
    first appends [root.sym] to the list of its level, the second [root]
    itself.  [item] is what is appended for the node at an address. *)
Fixpoint level_walk {A} (item : addr -> node.t -> A) (depth : nat) (h : heap)
  (root : option addr) (level : nat) (tlist : list (list A))
  : result (list (list A)) :=
  match root with
  | None => mret tlist
  | Some a =>
      match depth with
      | O => Raise RecursionError
      | S d =>
          let tlist1 := if length tlist <=? level then tlist ++ [[]] else tlist in
          l ← getitem tlist1 level;
          nd ← load h root;
          let tlist2 := <[level := l ++ [item a nd]]> tlist1 in
          tlist3 ← level_walk item d h (node.left nd) (level + 1) tlist2;
          level_walk item d h (node.right nd) (level + 1) tlist3
      end
  end.

(** [_level_traversal(root, level, tlist)]: the list after the call. *)
Definition _level_traversal (depth : nat) (h : heap) (root : option addr)
  (level : nat) (tlist : list (list string)) : result (list (list string)) :=
  level_walk (fun _ nd => node.sym nd) depth h root level tlist.


(** [level_order(ast)] *)
Definition level_order (s : heap * astree) : result (list (list string)) :=
  _level_traversal depth_limit s.1 (root s.2) 0 [].



End AstQueries.

Import AstQueries.

(** ** Reference functions on tree shapes *)

Module Shape.

Import Inv.

Fixpoint size (T : shape) : nat :=
  match T with
  | Leaf => 0
  | Node _ l r => S (size l + size r)
  end.

Fixpoint pre (T : shape) : list string :=
  match T with
  | Leaf => []
  | Node x l r => x :: pre l ++ pre r
  end.

Fixpoint ino (T : shape) : list string :=
  match T with
  | Leaf => []
  | Node x l r => ino l ++ x :: ino r
  end.

Fixpoint post (T : shape) : list string :=
  match T with
  | Leaf => []
  | Node x l r => post l ++ post r ++ [x]
  end.

(** Two lists of levels laid over each other, level by level. *)
Fixpoint zip_levels {A} (xs ys : list (list A)) : list (list A) :=
  match xs, ys with
  | [], _ => ys
  | _, [] => xs
  | x :: xs', y :: ys' => (x ++ y) :: zip_levels xs' ys'
  end.

(** The symbols of a tree level by level, each level from left to right. *)
Fixpoint levels (T : shape) : list (list string) :=
  match T with
  | Leaf => []
  | Node x l r => [x] :: zip_levels (levels l) (levels r)
  end.

(** The levels of a list of trees standing side by side. *)
Definition forest_levels (ts : list shape) : list (list string) :=
  foldr (fun T acc => zip_levels (levels T) acc) [] ts.

Fixpoint forest_size (ts : list shape) : nat :=
  match ts with
  | [] => 0
  | T :: ts' => size T + forest_size ts'
  end.

(** The chain of right children over a list of symbols. *)
Fixpoint right_chain (syms : list string) : shape :=
  match syms with
  | [] => Leaf
  | x :: syms' => Node x Leaf (right_chain syms')
  end.

End Shape.

(** ** More vocabulary for the tokenizer and the converter *)

Module Lexemes.

(** The characters of the lexemes of a token list, one after the other. *)
Definition chars (toks : list token.t) : list ascii :=
  flat_map (fun t => list_ascii_of_string (token.sym t)) toks.

(** The shapes of the tokens that [tokenize] makes: a Number is a non-empty
    run of digits, an Identifier a non-empty run of letters, a Function
    token is a key of [function_mapper] or the empty string, a parenthesis
    token holds its parenthesis and an Operator token an operator symbol. *)
Inductive shaped : token.t -> Prop :=
| shaped_num c d :
    Forall (fun x => is_digit x = true) (c :: d) -> shaped (tok_num (str (c :: d)))
| shaped_dummy c d :
    Forall (fun x => is_letter x = true) (c :: d) -> shaped (tok_dummy (str (c :: d)))
| shaped_func s :
    s = "" ∨ dict_mem function_mapper s = true -> shaped (tok_func s)
| shaped_leftb : shaped (tok_leftb "(")
| shaped_rightb : shaped (tok_rightb ")")
| shaped_oper s : is_symbol s = true -> shaped (tok_oper s).

(** A Number or Identifier token. *)
Definition operand_token (t : token.t) : Prop :=
  t = tok_num (token.sym t) ∨ t = tok_dummy (token.sym t).

(** The symbols of a postfix list between its first and its last. *)
Definition middle (p : list string) : list string := removelast (tail p).

(** A token that the converter sends to the output as it comes. *)
Definition operand (t : token.t) : bool := token.is_num t || token.is_dummy t.

(** The lexemes of the operands, and of the operands and operators, of a
    token list, in order. *)
Definition operands (toks : list token.t) : list string :=
  token.sym <$> List.filter operand toks.

Definition operands_operators (toks : list token.t) : list string :=
  token.sym <$> List.filter (fun t => operand t || token.is_oper t) toks.

(** The parentheses of a token list are matched: none is closed before it
    is opened and none stays open. *)
Definition balanced (toks : list token.t) : Prop :=
  (∀ pre, pre `prefix_of` toks -> Spec.closes pre <= Spec.opens pre) ∧
  Spec.closes toks = Spec.opens toks.

End Lexemes.

(** ** More vocabulary for the converter's output *)

Module Output.

(** A symbol of the output that is neither an operator nor "(". *)
Definition is_operand (s : string) : bool :=
  negb (is_symbol s) && negb (String.eqb "(" s).

(** The list without its "(" entries. *)
Definition no_leftb (l : list string) : list string :=
  List.filter (fun s => negb (String.eqb "(" s)) l.

End Output.

(** ** Paths in the store *)

Module Paths.

Import Ast.

(** [r] is the left or the right field of the node at [a]. *)
Definition child (h : heap) (a : addr) (r : option addr) : Prop :=
  ∃ n, h !! a = Some n ∧ (r = node.left n ∨ r = node.right n).

(** [r] is reached from the node at [a] through one or more child fields. *)
Inductive descends (h : heap) : addr -> option addr -> Prop :=
| descends_child a r : child h a r -> descends h a r
| descends_step a b r : child h a (Some b) -> descends h b r -> descends h a r.


(** The levels of the tree under [r], each node shown as [item] shows it. *)
Inductive levels_of {A} (item : addr -> node.t -> A) (h : heap)
  : option addr -> list (list A) -> Prop :=
| levels_None : levels_of item h None []
| levels_Some a n ll lr :
    h !! a = Some n ->
    levels_of item h (node.left n) ll ->
    levels_of item h (node.right n) lr ->
    levels_of item h (Some a) ([item a n] :: Shape.zip_levels ll lr).

End Paths.
(** * Properties *)

Import Ast.

(** ** Reading the combinators *)

Lemma expr_call_is_symbol (x : string) :
  expr_call "is_symbol" x = Ok (PyBool (is_symbol x)).
Proof. reflexivity. Qed.

Lemma expr_call_is_func (x : string) : expr_call "is_func" x = Ok PyNone.
Proof. reflexivity. Qed.

Lemma expr_call_is_unary (x : string) : expr_call "is_unary" x = Raise AttributeError.
Proof. reflexivity. Qed.

Lemma bind_Ok {A B} (a : A) (k : A -> result B) : (Ok a ≫= k) = k a.
Proof. reflexivity. Qed.

Lemma bind_Raise {A B} (e : exn) (k : A -> result B) : (Raise e ≫= k) = Raise e.
Proof. reflexivity. Qed.

Lemma load_Some (h : heap) (a : nat) (n : node.t) :
  h !! a = Some n -> load h (Some a) = Ok n.
Proof. intros H. unfold load. by rewrite H. Qed.

(** ** The precedence test *)

(** C5. For operator symbols [a] and [b] among ^ * / + -, [has_precedence a b]
    returns a boolean that is true exactly when [b] is right-associative and
    [a] has the higher precedence, or [b] is left-associative and [a] has
    precedence at least that of [b], under the table of the specification;
    and [has_precedence a a] is false for ^ and true for the other four. *)
Theorem has_precedence_spec (a b : string) :
  a ∈ Spec.operators -> b ∈ Spec.operators ->
  ∃ pa aa pb ab r,
    Spec.table a = Some (pa, aa) ∧
    Spec.table b = Some (pb, ab) ∧
    has_precedence a b = Ok r ∧
    (r = true ↔
       (ab = Spec.RightAssoc ∧ (pa > pb)%Z) ∨ (ab = Spec.LeftAssoc ∧ (pa >= pb)%Z)) ∧
    has_precedence a a = Ok (negb (String.eqb a "^")).
Proof.
  unfold Spec.operators. intros Ha Hb.
  repeat (apply elem_of_cons in Ha as [->|Ha]); [..|by apply elem_of_nil in Ha];
  repeat (apply elem_of_cons in Hb as [->|Hb]); try (by apply elem_of_nil in Hb);
  do 4 eexists; eexists;
    (split; [reflexivity|]); (split; [reflexivity|]); (split; [reflexivity|]);
    (split; [|reflexivity]);
    (split; [intros H; try discriminate H; first [left; split; [reflexivity|lia] | right; split; [reflexivity|lia]]
            | intros [[H1 H2]|[H1 H2]]; first [discriminate H1 | reflexivity | exfalso; lia ]]).
Qed.

Lemma has_precedence_spec_witness :
  ∃ pa aa pb ab r,
    Spec.table "^" = Some (pa, aa) ∧
    Spec.table "+" = Some (pb, ab) ∧
    has_precedence "^" "+" = Ok r ∧
    (r = true ↔
       (ab = Spec.RightAssoc ∧ (pa > pb)%Z) ∨ (ab = Spec.LeftAssoc ∧ (pa >= pb)%Z)) ∧
    has_precedence "^" "^" = Ok (negb (String.eqb "^" "^")).
Proof.
  apply (has_precedence_spec "^" "+"); unfold Spec.operators; repeat constructor.
Defined.

(** ** The tokenizer *)

Section Finditer.

Variable r : list (list ascii).
Hypothesis r_nonempty : Forall (fun p => p ≠ []) r.

Lemma starts_with_length (p s : list ascii) :
  starts_with p s = true -> length p <= length s.
Proof.
  revert s. induction p as [|a p IH]; intros [|b s] H; cbn in *; try lia; try done.
  apply andb_prop in H as [_ H]. apply IH in H. lia.
Qed.

Lemma match_here_bounds (s : list ascii) (n : nat) :
  match_here r s = Some n -> 1 <= n <= length s.
Proof.
  unfold match_here. destruct (find _ r) as [p|] eqn:Hf; [|done].
  intros [= <-]. apply find_some in Hf as [Hin Hp].
  apply starts_with_length in Hp.
  rewrite Forall_forall in r_nonempty. apply list_elem_of_In, r_nonempty in Hin.
  destruct p; [done|]. cbn in *. lia.
Qed.

Lemma chain_weaken (lo lo' hi : nat) (ms : list (nat * nat)) :
  lo' <= lo -> chain lo ms hi -> chain lo' ms hi.
Proof. destruct ms as [|[s en] ms]; cbn; [done|]. intros ? (?&?&?&?). repeat split; [lia|done..]. Qed.

Lemma finditer_chain (s : list ascii) (skip pos : nat) :
  chain (pos + skip) (finditer r skip pos s) (pos + length s).
Proof.
  revert skip pos. induction s as [|c s IH]; intros skip pos; [done|].
  cbn [finditer length]. destruct skip as [|k].
  - destruct (match_here r (c :: s)) as [n|] eqn:Hm.
    + apply match_here_bounds in Hm. cbn [length] in Hm. cbn [chain].
      repeat split; [lia..|].
      specialize (IH (n - 1) (S pos)).
      replace (S pos + (n - 1)) with (pos + n) in IH by lia.
      by replace (pos + S (length s)) with (S pos + length s) by lia.
    + specialize (IH 0 (S pos)).
      replace (pos + S (length s)) with (S pos + length s) by lia.
      eapply chain_weaken; [|done]. lia.
  - specialize (IH k (S pos)).
    replace (pos + S (length s)) with (S pos + length s) by lia.
    by replace (pos + S k) with (S pos + k) by lia.
Qed.

End Finditer.

Lemma chain_lookup (lo hi : nat) (ms : list (nat * nat)) (j s en : nat) :
  chain lo ms hi -> ms !! j = Some (s, en) -> lo <= s ∧ s < en ∧ en <= hi.
Proof.
  revert lo j. induction ms as [|[s0 e0] ms IH]; intros lo j; [by rewrite lookup_nil|].
  cbn [chain]. intros (?&?&?&Hc). destruct j as [|j]; cbn.
  - intros [= <- <-]. lia.
  - intros Hj. apply (IH _ _ Hc) in Hj. lia.
Qed.

Lemma chain_lookup_le (lo hi : nat) (ms : list (nat * nat)) (j k s en s' en' : nat) :
  chain lo ms hi -> j <= k ->
  ms !! j = Some (s, en) -> ms !! k = Some (s', en') -> s <= s'.
Proof.
  revert lo j k. induction ms as [|[s0 e0] ms IH]; intros lo j k; [by rewrite lookup_nil|].
  cbn [chain]. intros (?&?&?&Hc) Hjk. destruct j as [|j], k as [|k]; cbn; try lia.
  - intros [= <- <-] [= <- <-]. lia.
  - intros [= <- <-] Hk. apply (chain_lookup _ _ _ _ _ _ Hc) in Hk. lia.
  - apply (IH _ _ _ Hc). lia.
Qed.

Lemma func_regex_nonempty : Forall (fun p => p ≠ []) _func_regex.
Proof. repeat constructor; done. Qed.

Lemma run_length (p : ascii -> bool) (s : list ascii) : length (run p s) <= length s.
Proof. induction s as [|c s IH]; cbn; [lia|]. destruct (p c); cbn; lia. Qed.

Lemma run_head (p : ascii -> bool) (s : list ascii) (c : ascii) :
  s !! 0 = Some c -> p c = true -> 1 <= length (run p s).
Proof. destruct s as [|c' s]; cbn; [done|]. intros [= ->] ->. cbn. lia. Qed.

Section TokenizeLoop.

Variable e : list ascii.
Variable ms : list (nat * nat).
Hypothesis ms_chain : chain 0 ms (length e).

Lemma tokenize_body_progress (st : tstate) :
  tokenize_inv e ms st -> index st < length e ->
  ∃ st', tokenize_body e ms.*1 ms.*2 st = Ok st' ∧
         tokenize_inv e ms st' ∧
         tokenize_measure e ms st' < tokenize_measure e ms st.
Proof.
  intros (Hi & He & Hm) Hlt. unfold tokenize_body.
  destruct (bool_decide (index st ∈ ms.*1)) eqn:Hin.
  - apply bool_decide_eq_true in Hin.
    apply list_elem_of_fmap in Hin as ([s en] & Hs & Hin). cbn in Hs. subst s.
    apply list_elem_of_lookup in Hin as [j Hj].
    assert (eindex st <= j) as Hej.
    { destruct (decide (eindex st <= j)); [done|].
      assert (index st < index st) by (apply (Hm j _ en); [lia|done]). lia. }
    assert (j < length ms) by eauto using lookup_lt_Some.
    destruct (ms !! eindex st) as [[sk ek]|] eqn:Hk;
      [|apply lookup_ge_None in Hk; lia].
    unfold getitem. rewrite list_lookup_fmap, Hk. cbn [fmap option_fmap option_map snd].
    rewrite bind_Ok. eexists. split; [reflexivity|].
    destruct (chain_lookup _ _ _ _ _ _ ms_chain Hk) as (_ & Hsk & Hek).
    unfold tokenize_inv, tokenize_measure; cbn [index eindex].
    split; [split; [done|split; [lia|]]|].
    + intros j' s' en' Hj' Hl.
      assert (s' <= sk)
        by (eapply chain_lookup_le; [exact ms_chain| |exact Hl|exact Hk]; lia).
      lia.
    + replace (length ms - eindex st) with (S (length ms - S (eindex st))) by lia.
      cbn [Nat.mul]. lia.
  - destruct (e !! index st) as [t|] eqn:Ht; [|apply lookup_ge_None in Ht; lia].
    unfold getitem. rewrite Ht, bind_Ok.
    assert (Hstep : ∀ res,
      let st' := mk_tstate (index st + 1) (eindex st) res in
      tokenize_inv e ms st' ∧ tokenize_measure e ms st' < tokenize_measure e ms st).
    { intros res. unfold tokenize_inv, tokenize_measure; cbn [index eindex].
      split; [split; [lia|split; [done|]]|lia].
      intros j s en Hj Hl. specialize (Hm j s en Hj Hl). lia. }
    assert (Hrun : ∀ p res, p t = true ->
      let st' := mk_tstate (index st + length (run p (drop (index st) e)) - 1 + 1)
                           (eindex st) res in
      tokenize_inv e ms st' ∧ tokenize_measure e ms st' < tokenize_measure e ms st).
    { intros p res Hp.
      pose proof (run_length p (drop (index st) e)) as Hle. rewrite length_drop in Hle.
      pose proof (run_head p (drop (index st) e) t) as Hge.
      rewrite lookup_drop, Nat.add_0_r in Hge. specialize (Hge Ht Hp).
      unfold tokenize_inv, tokenize_measure; cbn [index eindex].
      split; [split; [lia|split; [done|]]|lia].
      intros j s en Hj Hl. specialize (Hm j s en Hj Hl). lia. }
    destruct (is_digit t) eqn:Hd; [eexists; split; [reflexivity|by apply Hrun]|].
    destruct (is_letter t) eqn:Hl; [eexists; split; [reflexivity|by apply Hrun]|].
    destruct (Ascii.eqb t "("); [eexists; split; [reflexivity|apply Hstep]|].
    destruct (Ascii.eqb t ")"); [eexists; split; [reflexivity|apply Hstep]|].
    destruct (is_symbol (str [t])); eexists; (split; [reflexivity|apply Hstep]).
Qed.

(** The loop ends, and what every turn preserves holds of its last state. *)
Lemma tokenize_loop_total (P : tstate -> Prop) (fuel : nat) (st : tstate) :
  (∀ s s', P s -> tokenize_body e ms.*1 ms.*2 s = Ok s' -> P s') ->
  P st ->
  tokenize_inv e ms st -> tokenize_measure e ms st <= fuel ->
  ∃ st', tokenize_loop fuel e ms.*1 ms.*2 st = Ok (tresult st') ∧ P st'.
Proof.
  intros HP. revert st. induction fuel as [|fuel IH]; intros st Hst Hinv Hfuel.
  - cbn [tokenize_loop]. destruct (index st <? length e) eqn:Hlt; [|by exists st].
    apply Nat.ltb_lt in Hlt. unfold tokenize_measure in Hfuel.
    destruct ((length ms - eindex st) * (length e + 1)); lia.
  - cbn [tokenize_loop]. destruct (index st <? length e) eqn:Hlt; [|by exists st].
    apply Nat.ltb_lt in Hlt.
    destruct (tokenize_body_progress st Hinv Hlt) as (st' & Hb & Hinv' & Hdec).
    rewrite Hb, bind_Ok. apply IH; [by apply (HP st)|done|lia].
Qed.

End TokenizeLoop.

(** The tokenizer returns a token list for every text; a property of the
    list that every turn of the loop preserves holds of the result. *)
Lemma tokenize_total_with (P : list token.t -> Prop) (e : string) :
  (∀ cs starts ends s s',
     P (tresult s) -> tokenize_body cs starts ends s = Ok s' -> P (tresult s')) ->
  P [] ->
  ∃ toks, tokenize e = Ok toks ∧ P toks.
Proof.
  intros HP Hnil. unfold tokenize, _match_regex.
  set (cs := list_ascii_of_string e). set (ms := finditer _func_regex 0 0 cs).
  destruct (tokenize_loop_total cs ms (finditer_chain _ func_regex_nonempty cs 0 0)
              (fun s => P (tresult s)) (tokenize_fuel cs ms.*1) (mk_tstate 0 0 []))
    as (st' & Hst' & HPst').
  - intros s s'. apply HP.
  - exact Hnil.
  - unfold tokenize_inv; cbn. split; [lia|split; [lia|]]. intros; lia.
  - unfold tokenize_measure, tokenize_fuel; cbn [index eindex].
    rewrite length_fmap. lia.
  - by exists (tresult st').
Qed.

Lemma tokenize_total (e : string) : ∃ toks, tokenize e = Ok toks.
Proof.
  destruct (tokenize_total_with (fun _ => True) e) as (toks & H & _); [done..|].
  by exists toks.
Qed.

Lemma tokenize_body_skip (e : list ascii) (starts ends : list nat) (st : tstate)
  (t : ascii) :
  e !! index st = Some t -> index st ∉ starts -> Spec.unrecognised t = true ->
  tokenize_body e starts ends st
  = Ok (mk_tstate (index st + 1) (eindex st) (tresult st)).
Proof.
  intros Ht Hs Hu. unfold tokenize_body, getitem.
  rewrite bool_decide_eq_false_2 by done. rewrite Ht, bind_Ok.
  unfold Spec.unrecognised in Hu. apply negb_true_iff in Hu.
  apply orb_false_iff in Hu as [Hu Hsym]. apply orb_false_iff in Hu as [Hu Hrb].
  apply orb_false_iff in Hu as [Hu Hlb]. apply orb_false_iff in Hu as [Hd Hl].
  by rewrite Hd, Hl, Hlb, Hrb, Hsym.
Qed.

(** C9. The tokenizer returns a token list for every input string.  A
    character that does not start a match of a function name and is no
    digit, no letter, no parenthesis and no operator symbol (so also ',')
    is passed over: the turn of the loop that meets it moves to the next
    character, adds no token and raises nothing. *)
Theorem tokenize_never_fails :
  (∀ e : string, ∃ toks, tokenize e = Ok toks) ∧
  (∀ (e : list ascii) (starts ends : list nat) (st : tstate) (t : ascii),
     e !! index st = Some t -> index st ∉ starts -> Spec.unrecognised t = true ->
     tokenize_body e starts ends st
     = Ok (mk_tstate (index st + 1) (eindex st) (tresult st))) ∧
  Spec.unrecognised "," = true ∧
  tokenize "1,2" = Ok [tok_num "1"; tok_num "2"].
Proof.
  split; [exact tokenize_total|].
  split; [exact tokenize_body_skip|].
  split; reflexivity.
Qed.

Lemma tokenize_never_fails_witness :
  tokenize_body (list_ascii_of_string "1,2") [] [] (mk_tstate 1 0 [tok_num "1"])
  = Ok (mk_tstate 2 0 [tok_num "1"]).
Proof.
  apply (proj1 (proj2 tokenize_never_fails)
           (list_ascii_of_string "1,2") [] [] (mk_tstate 1 0 [tok_num "1"]) ","%char).
  - reflexivity.
  - cbn. apply not_elem_of_nil.
  - reflexivity.
Defined.

(** ** Parentheses in the converter *)

Lemma tokenize_tokens (e : string) :
  ∃ toks, tokenize e = Ok toks ∧ Forall tokenizer_token toks.
Proof.
  apply tokenize_total_with; [|constructor].
  intros cs starts ends s s' Hs Hb.
  assert (Hadd : ∀ t, tokenizer_token t -> Forall tokenizer_token (tresult s ++ [t])).
  { intros t Ht. apply Forall_app. split; [done|]. by constructor. }
  unfold tokenize_body in Hb.
  destruct (bool_decide _).
  - destruct (getitem ends (eindex s)); cbn in Hb; try discriminate Hb.
    injection Hb as <-. apply Hadd. constructor.
  - destruct (getitem cs (index s)) as [t|x| |]; [|by cbn in Hb..].
    rewrite bind_Ok in Hb.
    destruct (is_digit t); [injection Hb as <-; apply Hadd; constructor|].
    destruct (is_letter t); [injection Hb as <-; apply Hadd; constructor|].
    revert Hb. destruct (Ascii.eqb_spec t "(") as [->|_];
      [intros [= <-]; apply Hadd; constructor|].
    destruct (Ascii.eqb_spec t ")") as [->|_];
      [intros [= <-]; apply Hadd; constructor|].
    destruct (is_symbol (str [t])) eqn:Hsym; intros [= <-]; [|done].
    apply Hadd. by constructor.
Qed.

Lemma is_symbol_cases (s : string) :
  is_symbol s = true -> s = "+" ∨ s = "-" ∨ s = "*" ∨ s = "/" ∨ s = "^".
Proof.
  unfold is_symbol, dict_mem. cbn.
  destruct (String.eqb_spec s "+") as [->|_]; [intros _; auto 7|].
  destruct (String.eqb_spec s "-") as [->|_]; [intros _; auto 7|].
  destruct (String.eqb_spec s "*") as [->|_]; [intros _; auto 7|].
  destruct (String.eqb_spec s "/") as [->|_]; [intros _; auto 7|].
  destruct (String.eqb_spec s "^") as [->|_]; [intros _; auto 7|]. done.
Qed.

Lemma has_precedence_total (a b : string) :
  is_symbol a = true -> is_symbol b = true -> ∃ r, has_precedence a b = Ok r.
Proof.
  intros Ha Hb. apply is_symbol_cases in Ha, Hb.
  destruct Ha as [Ha|[Ha|[Ha|[Ha|Ha]]]]; rewrite Ha;
    destruct Hb as [Hb|[Hb|[Hb|[Hb|Hb]]]]; rewrite Hb; eexists; reflexivity.
Qed.

Lemma stack_opens_cons (s : string) (op : list string) :
  stack_opens (s :: op) = (if String.eqb "(" s then 1 else 0) + stack_opens op.
Proof. unfold stack_opens. cbn [List.filter]. by destruct (String.eqb "(" s). Qed.

Lemma stack_opens_symbol (s : string) (op : list string) :
  is_symbol s = true -> stack_opens (s :: op) = stack_opens op.
Proof.
  intros Hs. rewrite stack_opens_cons.
  destruct (String.eqb_spec "(" s) as [<-|]; [discriminate Hs|done].
Qed.

(** Popping operators keeps the parentheses on the stack. *)
Lemma pop_operators_spec (s : string) (op q : list string) :
  is_symbol s = true -> Forall stack_entry op ->
  ∃ op' q', pop_operators s op q = Ok (op', q') ∧
            Forall stack_entry op' ∧ stack_opens op' = stack_opens op.
Proof.
  intros Hs. revert q. induction op as [|top op IH]; intros q Hop.
  - by exists [], q.
  - cbn [pop_operators]. apply Forall_cons in Hop as [Htop Hop].
    destruct (String.eqb_spec top "(") as [->|Hne].
    + eexists _, _. split; [reflexivity|]. split; [by constructor|done].
    + destruct Htop as [->|Htop]; [done|].
      destruct (has_precedence_total top s Htop Hs) as [r ->]. rewrite bind_Ok.
      destruct r.
      * destruct (IH (q ++ [top]) Hop) as (op' & q' & -> & Hop' & Hcnt).
        eexists _, _. split; [reflexivity|]. split; [done|].
        by rewrite stack_opens_symbol.
      * eexists _, _. split; [reflexivity|]. split; [|done].
        constructor; [by right|done].
Qed.

(** Popping down to a parenthesis stops at the first "(" if there is one,
    and empties the stack otherwise. *)
Lemma pop_to_leftb_spec (op q : list string) :
  Forall stack_entry op ->
  ∃ op' q', pop_to_leftb op q = (op', q') ∧
            match op' with
            | [] => stack_opens op = 0
            | top :: op'' =>
                top = "(" ∧ Forall stack_entry op'' ∧
                stack_opens op = S (stack_opens op'')
            end.
Proof.
  revert q. induction op as [|top op IH]; intros q Hop.
  - by exists [], q.
  - cbn [pop_to_leftb]. apply Forall_cons in Hop as [Htop Hop].
    destruct (String.eqb_spec top "(") as [->|Hne].
    + eexists _, _. split; [reflexivity|]. split; [done|]. split; [done|].
      by rewrite stack_opens_cons.
    + destruct Htop as [->|Htop]; [done|].
      destruct (IH (q ++ [top]) Hop) as (op' & q' & -> & Hop').
      eexists _, _. split; [reflexivity|].
      rewrite stack_opens_symbol by done. done.
Qed.

Lemma opens_cons (t : token.t) (toks : list token.t) :
  Spec.opens (t :: toks) = (if token.is_leftb t then 1 else 0) + Spec.opens toks.
Proof. unfold Spec.opens. cbn [List.filter]. by destruct (token.is_leftb t). Qed.

Lemma closes_cons (t : token.t) (toks : list token.t) :
  Spec.closes (t :: toks) = (if token.is_rightb t then 1 else 0) + Spec.closes toks.
Proof. unfold Spec.closes. cbn [List.filter]. by destruct (token.is_rightb t). Qed.

(** One turn of the scan: a right parenthesis met with no "(" on the stack
    raises the index fault of [pop]; every other turn goes through and keeps
    count of the parentheses. *)
Lemma postfix_step_spec (t : token.t) (q op : list string) :
  tokenizer_token t -> Forall stack_entry op ->
  if token.is_rightb t && (stack_opens op =? 0)
  then postfix_step t (q, op) = Raise IndexError
  else ∃ q' op', postfix_step t (q, op) = Ok (q', op') ∧
         Forall stack_entry op' ∧
         stack_opens op' + (if token.is_rightb t then 1 else 0)
         = stack_opens op + (if token.is_leftb t then 1 else 0).
Proof.
  intros Ht Hop. destruct Ht as [s|s|s| | |s Hs]; cbn [token.is_rightb token.is_leftb tok_num
    tok_func tok_dummy tok_leftb tok_rightb tok_oper andb].
  - eexists _, _. split; [reflexivity|]. split; [done|lia].
  - eexists _, _. split; [reflexivity|]. split; [done|lia].
  - eexists _, _. split; [reflexivity|]. split; [done|lia].
  - eexists _, _. split; [reflexivity|]. split; [constructor; [by left|done]|].
    rewrite stack_opens_cons. cbn. lia.
  - unfold postfix_step. cbn [token.is_num token.is_dummy token.is_leftb token.is_oper
      token.is_rightb tok_rightb orb].
    destruct (pop_to_leftb_spec op q Hop) as (op' & q' & -> & Hop').
    destruct op' as [|top op''].
    + rewrite Hop'. reflexivity.
    + destruct Hop' as (-> & Hop'' & ->). cbn [Nat.eqb pop].
      eexists _, _. split; [reflexivity|]. split; [done|lia].
  - unfold postfix_step. cbn [token.is_num token.is_dummy token.is_leftb token.is_oper
      token.is_rightb token.sym tok_oper orb].
    destruct (0 <? length op).
    + destruct (pop_operators_spec s op q Hs Hop) as (op' & q' & -> & Hop' & Hcnt).
      eexists _, _. split; [reflexivity|]. split; [constructor; [by right|done]|].
      rewrite stack_opens_symbol by done. lia.
    + eexists _, _. split; [reflexivity|]. split; [constructor; [by right|done]|].
      rewrite stack_opens_symbol by done. lia.
Qed.

Lemma prefix_cons_cases {A} (pre : list A) (t : A) (toks : list A) :
  pre `prefix_of` t :: toks ->
  pre = [] ∨ ∃ pre', pre = t :: pre' ∧ pre' `prefix_of` toks.
Proof.
  destruct pre as [|t' pre']; [by left|]. intros H. right.
  pose proof (prefix_cons_inv_1 _ _ _ _ H) as ->.
  apply prefix_cons_inv_2 in H. by exists pre'.
Qed.

Lemma scan_excess_closing (toks : list token.t) (q op : list string) :
  Forall tokenizer_token toks -> Forall stack_entry op ->
  (∃ pre, pre `prefix_of` toks ∧ stack_opens op + Spec.opens pre < Spec.closes pre) ->
  postfix_scan toks (q, op) = Raise IndexError.
Proof.
  revert q op. induction toks as [|t toks IH]; intros q op Htoks Hop (pre & Hpre & Hex).
  - apply prefix_nil_inv in Hpre as ->. cbn in Hex. lia.
  - apply Forall_cons in Htoks as [Ht Htoks].
    apply prefix_cons_cases in Hpre as [->|(pre' & -> & Hpre')]; [cbn in Hex; lia|].
    rewrite opens_cons, closes_cons in Hex. cbn [postfix_scan].
    pose proof (postfix_step_spec t q op Ht Hop) as Hstep.
    destruct (token.is_rightb t && (stack_opens op =? 0)); [by rewrite Hstep|].
    destruct Hstep as (q' & op' & -> & Hop' & Hcnt). rewrite bind_Ok.
    apply IH; [done..|]. exists pre'. split; [done|]. lia.
Qed.

Lemma scan_no_excess_closing (toks : list token.t) (q op : list string) :
  Forall tokenizer_token toks -> Forall stack_entry op ->
  (∀ pre, pre `prefix_of` toks -> Spec.closes pre <= stack_opens op + Spec.opens pre) ->
  ∃ q' op', postfix_scan toks (q, op) = Ok (q', op') ∧
            stack_opens op' + Spec.closes toks = stack_opens op + Spec.opens toks.
Proof.
  revert q op. induction toks as [|t toks IH]; intros q op Htoks Hop Hpre.
  - exists q, op. split; [reflexivity|]. cbn. lia.
  - apply Forall_cons in Htoks as [Ht Htoks]. cbn [postfix_scan].
    pose proof (postfix_step_spec t q op Ht Hop) as Hstep.
    pose proof (Hpre [t] (prefix_cons t [] toks (prefix_nil toks))) as H1.
    rewrite opens_cons, closes_cons in H1. cbn in H1.
    destruct (token.is_rightb t) eqn:Hrb.
    + assert (token.is_leftb t = false) as Hlb by (by destruct Ht).
      rewrite Hlb in *. destruct (stack_opens op =? 0) eqn:H0.
      { apply Nat.eqb_eq in H0. lia. }
      cbn [andb] in Hstep. destruct Hstep as (q' & op' & -> & Hop' & Hcnt).
      rewrite bind_Ok. destruct (IH q' op' Htoks Hop') as (q2 & op2 & -> & Hcnt2).
      * intros pre Hp. specialize (Hpre (t :: pre) (prefix_cons t _ _ Hp)).
        rewrite opens_cons, closes_cons, Hrb, Hlb in Hpre. lia.
      * eexists _, _. split; [reflexivity|].
        rewrite opens_cons, closes_cons, Hrb, Hlb. lia.
    + cbn [andb] in Hstep. destruct Hstep as (q' & op' & -> & Hop' & Hcnt).
      rewrite bind_Ok. destruct (IH q' op' Htoks Hop') as (q2 & op2 & -> & Hcnt2).
      * intros pre Hp. specialize (Hpre (t :: pre) (prefix_cons t _ _ Hp)).
        rewrite opens_cons, closes_cons, Hrb in Hpre. lia.
      * eexists _, _. split; [reflexivity|].
        rewrite opens_cons, closes_cons, Hrb. lia.
Qed.

Lemma stack_opens_pos (op : list string) : 0 < stack_opens op -> "(" ∈ op.
Proof.
  induction op as [|s op IH]; [cbn; lia|]. rewrite stack_opens_cons.
  destruct (String.eqb_spec "(" s) as [<-|_]; [intros _; apply list_elem_of_here|].
  intros H. apply list_elem_of_further, IH. lia.
Qed.

(** C3, the claim as stated, on its own examples: for "(1+2" the converter
    completes and returns a list that ends with the unmatched "("; for
    ")1(" what is raised is the index fault of popping an empty list. *)
Lemma postfix_unbalanced_examples :
  postfix "(1+2" = Ok ["1"; "2"; "+"; "("] ∧
  postfix ")1(" = Raise IndexError.
Proof. split; reflexivity. Qed.

(** C3, amended. Every input has a token sequence.  If somewhere in it more
    parentheses have been closed than opened (as in ")1("), the converter
    raises the index fault of popping the empty operator stack.  If none is
    closed before it is opened and some stay open at the end (as in
    "(1+2"), the converter completes, and the list it returns contains the
    symbol "(". *)
Theorem postfix_unbalanced_parentheses (e : string) :
  ∃ toks, tokenize e = Ok toks ∧
    (Spec.excess_closing toks -> postfix e = Raise IndexError) ∧
    (Spec.excess_opening toks -> ∃ q, postfix e = Ok q ∧ "(" ∈ q).
Proof.
  destruct (tokenize_tokens e) as (toks & Htok & Hwf). exists toks.
  split; [done|]. unfold postfix, postfix_tokens. rewrite Htok, bind_Ok. split.
  - intros (pre & Hpre & Hex).
    rewrite (scan_excess_closing toks [] [] Hwf); [done|constructor|].
    exists pre. split; [done|]. cbn. lia.
  - intros [Hpre Hex].
    destruct (scan_no_excess_closing toks [] [] Hwf) as (q & op & -> & Hcnt);
      [constructor|intros pre Hp; specialize (Hpre pre Hp); cbn; lia|].
    rewrite bind_Ok. eexists. split; [reflexivity|].
    apply elem_of_app. right. apply stack_opens_pos. cbn in Hcnt. lia.
Qed.

Lemma closes_prefix_le (pre toks : list token.t) :
  pre `prefix_of` toks -> Spec.closes pre <= Spec.closes toks.
Proof.
  intros [k ->]. unfold Spec.closes. rewrite List.filter_app, length_app. lia.
Qed.

Lemma postfix_unbalanced_parentheses_witness :
  postfix ")1(" = Raise IndexError ∧ ∃ q, postfix "(1+2" = Ok q ∧ "(" ∈ q.
Proof.
  split.
  - destruct (postfix_unbalanced_parentheses ")1(") as (toks & Htok & Hclosing & _).
    apply Hclosing. vm_compute in Htok. injection Htok as <-.
    exists [tok_rightb ")"]. split; [by eexists|]. cbn. lia.
  - destruct (postfix_unbalanced_parentheses "(1+2") as (toks & Htok & _ & Hopening).
    apply Hopening. vm_compute in Htok. injection Htok as <-. split.
    + intros pre Hp. apply closes_prefix_le in Hp. cbn in Hp. lia.
    + cbn. lia.
Defined.

(** The converter returns a list or raises the index fault, nothing else. *)
Lemma postfix_scan_outcome (toks : list token.t) (q op : list string) :
  Forall tokenizer_token toks -> Forall stack_entry op ->
  (∃ q' op', postfix_scan toks (q, op) = Ok (q', op')) ∨
  postfix_scan toks (q, op) = Raise IndexError.
Proof.
  revert q op. induction toks as [|t toks IH]; intros q op Htoks Hop.
  - left. by exists q, op.
  - apply Forall_cons in Htoks as [Ht Htoks]. cbn [postfix_scan].
    pose proof (postfix_step_spec t q op Ht Hop) as Hstep.
    destruct (token.is_rightb t && (stack_opens op =? 0)).
    + right. by rewrite Hstep.
    + destruct Hstep as (q' & op' & -> & Hop' & _). rewrite bind_Ok.
      by apply IH.
Qed.

Lemma postfix_outcome (e : string) :
  (∃ p, postfix e = Ok p) ∨ postfix e = Raise IndexError.
Proof.
  destruct (tokenize_tokens e) as (toks & Htok & Hwf).
  unfold postfix, postfix_tokens. rewrite Htok, bind_Ok.
  destruct (postfix_scan_outcome toks [] [] Hwf) as [(q & op & ->)| ->];
    [constructor| |by right].
  left. by eexists.
Qed.

(** ** Function tokens in the converter *)

(** C4. A Function token changes neither the output list nor the operator
    stack of the converter: its lexeme is not appended, so the postfix list
    of "sin(1)" is ["1"] and holds no function name. *)
Theorem postfix_drops_function_tokens :
  (∀ (s : string) (qo : list string * list string),
     postfix_step (tok_func s) qo = Ok qo) ∧
  tokenize "sin(1)" = Ok [tok_func "sin"; tok_leftb "("; tok_num "1"; tok_rightb ")"] ∧
  postfix "sin(1)" = Ok ["1"].
Proof.
  split; [|split; vm_compute; reflexivity].
  intros s [q op]. reflexivity.
Qed.

(** ** Cursor insertion *)

Lemma attach_free (x : string) (h : heap) (c : addr) (n : node.t) :
  h !! c = Some n -> node.right n = None ->
  attach x h (Some c)
  = Ok (<[c := node.set_right (Some (length h)) n]> (h ++ [node.new x (Some c) None None]),
        length h, Some c).
Proof.
  intros Hc Hr. unfold attach, load. rewrite Hc, bind_Ok, Hr. cbn [is_None alloc].
  unfold store_right, load. rewrite lookup_app_l by eauto using lookup_lt_Some.
  rewrite Hc. reflexivity.
Qed.

Lemma attach_occupied (x : string) (h : heap) (c : addr) (n : node.t) :
  h !! c = Some n -> node.right n ≠ None -> node.left n = None ->
  attach x h (Some c) = Raise AttributeError.
Proof.
  intros Hc Hr Hl. unfold attach, load. rewrite Hc, bind_Ok, Hl.
  destruct (node.right n); [|done]. reflexivity.
Qed.

Lemma add_root (x : string) (h : heap) (c : option addr) :
  add x (h, mk_astree None c)
  = Ok (h ++ [node.new x None None None],
        mk_astree (Some (length h)) (Some (length h))).
Proof. reflexivity. Qed.

Lemma add_free (x : string) (h : heap) (r c : addr) (n : node.t) :
  h !! c = Some n -> node.right n = None ->
  add x (h, mk_astree (Some r) (Some c))
  = Ok (<[c := node.set_right (Some (length h)) n]> (h ++ [node.new x (Some c) None None]),
        mk_astree (Some r) (if is_symbol x then Some (length h) else Some c)).
Proof.
  intros Hc Hr. unfold add. cbn [root cur is_None].
  rewrite expr_call_is_symbol, bind_Ok. cbn [truthy].
  rewrite (attach_free x h c n Hc Hr).
  destruct (is_symbol x); reflexivity.
Qed.

Lemma add_occupied (x : string) (h : heap) (r c : addr) (n : node.t) :
  h !! c = Some n -> node.right n ≠ None -> node.left n = None ->
  add x (h, mk_astree (Some r) (Some c)) = Raise AttributeError.
Proof.
  intros Hc Hr Hl. unfold add. cbn [root cur is_None].
  rewrite expr_call_is_symbol, bind_Ok. cbn [truthy].
  rewrite (attach_occupied x h c n Hc Hr Hl).
  destruct (is_symbol x); reflexivity.
Qed.

Lemma lefts_free_nil : lefts_free [].
Proof. intros a n H. by rewrite lookup_nil in H. Qed.

Lemma lefts_free_attach (h : heap) (c : addr) (n m : node.t) (v : option addr) :
  lefts_free h -> h !! c = Some n -> node.left m = None ->
  lefts_free (<[c := node.set_right v n]> (h ++ [m])).
Proof.
  intros Hh Hc Hm a k Hk.
  destruct (decide (a = c)) as [->|Hne].
  - rewrite list_lookup_insert_eq in Hk
      by (rewrite length_app; apply lookup_lt_Some in Hc; lia).
    injection Hk as <-. cbn. by apply Hh with c.
  - rewrite list_lookup_insert_ne in Hk by done.
    apply lookup_app_Some in Hk as [Hk|[_ Hk]].
    + by apply Hh with a.
    + apply list_lookup_singleton_Some in Hk as [_ <-]. done.
Qed.

Lemma add_inv_init : add_inv ([], astree_init).
Proof. split; [apply lefts_free_nil | done]. Qed.

(** What one call of [add] does in such a state. *)
Lemma add_cases (x : string) (s : heap * astree) :
  add_inv s ->
  if Spec.cursor_right_occupied s then add x s = Raise AttributeError
  else ∃ s', add x s = Ok s' ∧ add_inv s' ∧ root s'.2 ≠ None ∧
             Spec.cursor_right_occupied s'
             = negb (is_None (root s.2)) && negb (is_symbol x).
Proof.
  destruct s as [h [r c]]. intros [Hl Hc]. cbn [fst snd root cur] in *.
  unfold Spec.cursor_right_occupied. cbn [fst snd root cur].
  destruct r as [r|], c as [a|]; try done.
  - destruct Hc as [n Ha]. rewrite Ha.
    assert (a < length h) by eauto using lookup_lt_Some.
    destruct (node.right n) as [k|] eqn:Hr; cbn [is_None negb].
    + apply add_occupied with n; [done| by rewrite Hr |by apply Hl with a].
    + eexists. split; [by apply add_free|].
      split; [split|split]; cbn [fst snd root cur].
      * apply lefts_free_attach; [done..|reflexivity].
      * destruct (is_symbol x).
        -- rewrite list_lookup_insert_ne by lia.
           rewrite lookup_app_r by lia. rewrite Nat.sub_diag. by eexists.
        -- rewrite list_lookup_insert_eq by (rewrite length_app; lia). by eexists.
      * done.
      * destruct (is_symbol x); cbn [negb andb].
        -- rewrite list_lookup_insert_ne by lia.
           rewrite lookup_app_r by lia. by rewrite Nat.sub_diag.
        -- by rewrite list_lookup_insert_eq by (rewrite length_app; lia).
  - eexists. split; [apply add_root|].
    split; [split|split]; cbn [fst snd root cur].
    + intros a n Hn. apply lookup_app_Some in Hn as [Hn|[_ Hn]].
      * by apply Hl with a.
      * apply list_lookup_singleton_Some in Hn as [_ <-]. done.
    + rewrite lookup_app_r by lia. rewrite Nat.sub_diag. by eexists.
    + done.
    + rewrite lookup_app_r by lia. by rewrite Nat.sub_diag.
Qed.

Lemma add_all_app (pre post : list string) (s : heap * astree) :
  add_all (pre ++ post) s = add_all pre s ≫= add_all post.
Proof.
  revert s. induction pre as [|x pre IH]; intros s; [reflexivity|].
  cbn [app add_all]. destruct (add x s) as [s'| | |]; [|reflexivity..].
  rewrite !bind_Ok. apply IH.
Qed.

(** A run of [add] either goes through, or stops at an attribute fault. *)
Lemma add_all_outcome (syms : list string) (s : heap * astree) :
  add_inv s ->
  (∃ s', add_all syms s = Ok s' ∧ add_inv s' ∧ (syms ≠ [] -> root s'.2 ≠ None)) ∨
  add_all syms s = Raise AttributeError.
Proof.
  revert s. induction syms as [|x syms IH]; intros s Hs.
  - left. by exists s.
  - cbn [add_all]. pose proof (add_cases x s Hs) as Hx.
    destruct (Spec.cursor_right_occupied s).
    + right. by rewrite Hx.
    + destruct Hx as (s1 & -> & Hs1 & Hroot & _). rewrite bind_Ok.
      destruct (IH s1 Hs1) as [(s' & Hs' & Hinv & Hr)|Hf]; [left|by right].
      exists s'. split; [done|]. split; [done|]. intros _.
      destruct syms; [|by apply Hr]. by injection Hs' as <-.
Qed.

(** An operand that is not the root blocks every later insertion. *)
Lemma add_all_operand_then_more (pre post : list string) (x y : string) :
  pre ≠ [] -> is_symbol x = false ->
  add_all (pre ++ x :: y :: post) ([], astree_init) = Raise AttributeError.
Proof.
  intros Hpre Hx. rewrite add_all_app.
  destruct (add_all_outcome pre _ add_inv_init) as [(s1 & -> & Hs1 & Hr)| ->];
    [|reflexivity].
  rewrite bind_Ok. cbn [add_all]. specialize (Hr Hpre).
  pose proof (add_cases x s1 Hs1) as H1.
  destruct (Spec.cursor_right_occupied s1); [by rewrite H1|].
  destruct H1 as (s2 & -> & Hs2 & _ & Hocc). rewrite bind_Ok.
  pose proof (add_cases y s2 Hs2) as H2. rewrite Hocc, Hx in H2.
  destruct (root s1.2); [|done]. cbn in H2. by rewrite H2.
Qed.

(** C2, the claim as stated, on the list ["3"; "*"; "+"] of "+*3": when "3"
    arrives the right child of the root is occupied (by the node of "*"),
    and [add] attaches "3" below "*" without any fault. *)
Lemma add_succeeds_with_root_right_occupied :
  ∃ s s' : heap * astree,
    add_all ["+"; "*"] ([], astree_init) = Ok s ∧
    Spec.root_right_occupied s = true ∧
    add "3" s = Ok s' ∧
    build_postfix [] ["3"; "*"; "+"] = Ok s' ∧
    build "+*3" = Ok s'.
Proof. eexists _, _. repeat split; vm_compute; reflexivity. Qed.

(** C2, amended. Whenever a symbol of a postfix list has to be attached
    while the right child of the cursor is occupied, [add], and with it the
    run over the list, raises an attribute fault.  This is so for every
    list that continues after a first operand with a second one that begins
    with an operand symbol and ends with their operator, and for "1+2".
    Hence no node of a built tree has a left child.  The fault is the
    lookup of [is_unary] in module [expr], which binds no such name; its
    [is_func] returns [None] for every symbol. *)
Theorem add_faults_when_cursor_right_occupied :
  (∀ (p pre post : list string) (x : string) (s : heap * astree),
     reverse p = pre ++ x :: post ->
     add_all pre ([], astree_init) = Ok s ->
     Spec.cursor_right_occupied s = true ->
     add x s = Raise AttributeError ∧ build_postfix [] p = Raise AttributeError) ∧
  (∀ (A B : list string) (b op : string),
     A ≠ [] -> is_symbol b = false ->
     build_postfix [] (A ++ b :: B ++ [op]) = Raise AttributeError) ∧
  build "1+2" = Raise AttributeError ∧
  (∀ (p : list string) (s : heap * astree),
     build_postfix [] p = Ok s -> ∀ a n, s.1 !! a = Some n -> node.left n = None) ∧
  (∀ (e : string) (s : heap * astree),
     build e = Ok s -> ∀ a n, s.1 !! a = Some n -> node.left n = None) ∧
  (∀ s : string, expr_call "is_unary" s = Raise AttributeError) ∧
  (∀ s : string, is_func s = PyNone).
Proof.
  assert (Hleft : ∀ (p : list string) (s : heap * astree),
            build_postfix [] p = Ok s -> lefts_free s.1).
  { intros p s Hp. unfold build_postfix in Hp.
    destruct (add_all_outcome (reverse p) _ add_inv_init) as [(s' & Hs' & [Hl _] & _)|Hf];
      rewrite Hp in *; [by injection Hs' as ->|discriminate Hf]. }
  split; [|split; [|split; [|split; [|split; [|split; reflexivity]]]]].
  - intros p pre post x s Hp Hpre Hocc.
    assert (Hs : add_inv s).
    { destruct (add_all_outcome pre _ add_inv_init) as [(s' & Hs' & Hinv & _)|Hf];
        rewrite Hpre in *; [by injection Hs' as ->|discriminate Hf]. }
    pose proof (add_cases x s Hs) as Hx. rewrite Hocc in Hx. split; [done|].
    unfold build_postfix. rewrite Hp, add_all_app, Hpre, bind_Ok.
    cbn [add_all]. by rewrite Hx.
  - intros A B b op HA Hb. unfold build_postfix.
    rewrite reverse_app, reverse_cons, reverse_app, reverse_singleton.
    destruct (reverse A) as [|y post] eqn:HrA.
    { apply (f_equal reverse) in HrA. rewrite reverse_involutive in HrA. done. }
    rewrite <-!app_assoc. cbn [app].
    change (op :: reverse B ++ b :: y :: post)
      with ((op :: reverse B) ++ b :: y :: post).
    by apply add_all_operand_then_more.
  - reflexivity.
  - exact Hleft.
  - intros e s He. unfold build in He.
    destruct (postfix (remove_spaces e)) as [p| | |]; try discriminate He.
    apply (Hleft p s He).
Qed.

Lemma add_faults_when_cursor_right_occupied_witness :
  add "1" ([node.mk "+" None None (Some 1); node.mk "2" None (Some 0) None],
           mk_astree (Some 0) (Some 0))
  = Raise AttributeError ∧
  build_postfix [] ["1"; "2"; "+"] = Raise AttributeError.
Proof.
  apply (proj1 add_faults_when_cursor_right_occupied
           ["1"; "2"; "+"] ["+"; "2"] [] "1"); reflexivity.
Defined.

(** ** The trees that [build] returns *)

Lemma spine_lookup (syms : list string) (i : nat) :
  spine syms !! i
  = (fun x => node.mk x None (match i with 0 => None | S j => Some j end)
                (if S i <? length syms then Some (S i) else None)) <$> syms !! i.
Proof. unfold spine. by rewrite list_lookup_imap. Qed.

Lemma spine_length (syms : list string) : length (spine syms) = length syms.
Proof. unfold spine. by rewrite length_imap. Qed.

(** A successful run of [add] from the empty tree leaves a single chain of
    right children, in the order of insertion. *)
Lemma add_all_spine (syms : list string) (h : heap) (t : astree) :
  add_all syms ([], astree_init) = Ok (h, t) ->
  h = spine syms ∧ root t = match syms with [] => None | _ => Some 0 end.
Proof.
  revert h t. induction syms as [|x pre IH] using rev_ind; intros h t Hadd.
  - by injection Hadd as <- <-.
  - rewrite add_all_app in Hadd.
    destruct (add_all_outcome pre _ add_inv_init) as [([h1 t1] & H1 & Hinv & _)|Hf];
      [|by rewrite Hf in Hadd].
    rewrite H1, bind_Ok in Hadd. cbn [add_all] in Hadd.
    destruct (IH h1 t1 H1) as [-> Hroot].
    destruct (add x (spine pre, t1)) as [s'| | |] eqn:Hx; try discriminate Hadd.
    rewrite bind_Ok in Hadd. injection Hadd as ->.
    destruct Hinv as [Hl Hc]. cbn [fst snd] in *. destruct t1 as [r c].
    cbn [root cur] in *. subst r.
    destruct pre as [|y pre'] using rev_ind.
    + destruct c; [done|]. rewrite add_root in Hx. by injection Hx as <- <-.
    + clear IHpre'. set (pre := pre' ++ [y]) in *.
      assert (root {| root := match pre with [] => None | _ :: _ => Some 0 end;
                      cur := c |} = Some 0) as Hr.
      { subst pre. by destruct pre'. }
      cbn [root] in Hr. rewrite Hr in *. destruct c as [c|]; [|done].
      destruct Hc as [n Hn].
      destruct (node.right n) as [k|] eqn:Hright.
      { rewrite (add_occupied x _ 0 c n Hn) in Hx;
          [done|by rewrite Hright|by apply Hl with c]. }
      rewrite (add_free x _ 0 c n Hn Hright) in Hx. injection Hx as <- <-.
      assert (c < length pre) as Hlt.
      { apply lookup_lt_Some in Hn. by rewrite spine_length in Hn. }
      pose proof Hn as Hn'. rewrite spine_lookup in Hn'.
      destruct (pre !! c) as [z|] eqn:Hz; [|done]. injection Hn' as <-.
      cbn [node.right] in Hright.
      destruct (S c <? length pre) eqn:Hlast; [done|]. apply Nat.ltb_ge in Hlast.
      assert (c = length pre - 1) as Hc by lia.
      split; [|by destruct pre]. rewrite spine_length.
      apply list_eq. intros i. rewrite spine_lookup, length_app. cbn [length].
      destruct (decide (i = c)) as [->|Hne].
      * rewrite list_lookup_insert_eq by (rewrite length_app, spine_length; lia).
        rewrite lookup_app_l, Hz by lia. cbn -[Nat.ltb].
        replace (S c <? length pre + 1) with true by (symmetry; apply Nat.ltb_lt; lia).
        by replace (length pre) with (S c) by lia.
      * rewrite list_lookup_insert_ne by done.
        destruct (decide (i < length pre)).
        -- rewrite !lookup_app_l by (rewrite ?spine_length; lia).
           rewrite spine_lookup. destruct (pre !! i) as [w|]; [|done]. cbn -[Nat.ltb].
           replace (S i <? length pre) with true by (symmetry; apply Nat.ltb_lt; lia).
           by replace (S i <? length pre + 1) with true
             by (symmetry; apply Nat.ltb_lt; lia).
        -- destruct (decide (i = length pre)) as [->|].
           ++ rewrite !lookup_app_r by (rewrite ?spine_length; lia).
              rewrite spine_length, Nat.sub_diag. cbn -[Nat.ltb].
              replace (S (length pre) <? length pre + 1) with false
                by (symmetry; apply Nat.ltb_ge; lia).
              destruct (length pre) eqn:Hlen; [lia|]. unfold node.new.
              do 3 f_equal. lia.
           ++ rewrite !lookup_ge_None_2; [done|..];
                rewrite ?length_app, ?spine_length; cbn; lia.
Qed.

(** Post-order of a chain of right children: the symbols from the deepest
    node up. *)
Lemma travel_postorder_spine (syms li : list string) (k d i : nat) :
  i + k = length syms -> k <= d -> 0 < k ->
  travel_postorder d (spine syms) (Some i) li = Ok (li ++ reverse (drop i syms)).
Proof.
  revert d i li. induction k as [|k IH]; intros d i li Hik Hd Hk; [lia|].
  destruct d as [|d]; [lia|]. cbn [travel_postorder is_None].
  unfold load. rewrite spine_lookup.
  destruct (syms !! i) as [x|] eqn:Hx; [|apply lookup_ge_None in Hx; lia].
  cbn [fmap option_fmap option_map]. rewrite bind_Ok. cbn [node.left node.right node.sym].
  assert (travel_postorder d (spine syms) None li = Ok li) as -> by by destruct d.
  rewrite bind_Ok. rewrite (drop_S _ _ _ Hx), reverse_cons.
  destruct (S i <? length syms) eqn:Hlt.
  - apply Nat.ltb_lt in Hlt. rewrite (IH d (S i) li) by lia.
    rewrite bind_Ok. cbn. by rewrite app_assoc.
  - apply Nat.ltb_ge in Hlt.
    assert (travel_postorder d (spine syms) None li = Ok li) as -> by by destruct d.
    rewrite bind_Ok, drop_ge by lia. done.
Qed.

(** The budget of a query is positive and below the interpreter's limit. *)
Lemma depth_limit_S : depth_limit = S (Nat.pred depth_limit).
Proof. reflexivity. Qed.

Lemma depth_limit_below : depth_limit < recursion_limit.
Proof. apply Nat.ltb_lt. reflexivity. Qed.

(** Post-order of a chain of right children that is longer than the depth
    allowed: the recursion is cut off on the way down. *)
Lemma travel_postorder_spine_deep (syms li : list string) (k d i : nat) :
  i + k = length syms -> d < k ->
  travel_postorder d (spine syms) (Some i) li = Raise RecursionError.
Proof.
  revert k i li. induction d as [|d IH]; intros k i li Hik Hd; [reflexivity|].
  cbn [travel_postorder is_None]. unfold load. rewrite spine_lookup.
  destruct (syms !! i) as [x|] eqn:Hx; [|apply lookup_ge_None in Hx; lia].
  cbn [fmap option_fmap option_map]. rewrite bind_Ok. cbn [node.left node.right node.sym].
  assert (travel_postorder d (spine syms) None li = Ok li) as -> by by destruct d.
  rewrite bind_Ok.
  replace (S i <? length syms) with true by (symmetry; apply Nat.ltb_lt; lia).
  by rewrite (IH (k - 1) (S i) li) by lia.
Qed.

(** Where [build] returns a tree, its post-order is the postfix list the
    tree was built from, as long as the list is no longer than the depth
    allowed to [travel]; from the interpreter's limit on, [postorder]
    raises [RecursionError]. *)
Lemma postorder_build_postfix (p : list string) (s : heap * astree) :
  build_postfix [] p = Ok s ->
  (length p <= depth_limit -> postorder s = Ok p) ∧
  (recursion_limit <= length p -> postorder s = Raise RecursionError).
Proof.
  destruct s as [h t]. unfold build_postfix. intros Hb.
  apply add_all_spine in Hb as [-> Hroot].
  unfold postorder. cbn [fst snd]. rewrite Hroot.
  assert (length (reverse p) = length p) as Hlen by apply length_reverse.
  destruct (reverse p) as [|x syms] eqn:Hp.
  - apply (f_equal reverse) in Hp. rewrite reverse_involutive in Hp. subst p.
    split; [done|]. cbn. pose proof depth_limit_below. unfold recursion_limit in *. lia.
  - split; intros Hd.
    + rewrite (travel_postorder_spine _ [] (length (x :: syms))); [|lia..|cbn; lia].
      rewrite drop_0, <-Hp, reverse_involutive. done.
    + apply (travel_postorder_spine_deep _ [] (length (x :: syms))); [done|].
      pose proof depth_limit_below. lia.
Qed.

(** An expression without spaces is passed on by [build] as it is. *)
Lemma remove_spaces_id (e : string) :
  " "%char ∉ list_ascii_of_string e -> remove_spaces e = e.
Proof.
  intros He. unfold remove_spaces, str.
  rewrite <-(string_of_list_ascii_of_string e) at 2. f_equal.
  induction (list_ascii_of_string e) as [|c l IH]; [done|].
  apply not_elem_of_cons in He as [Hc Hl].
  rewrite filter_cons, decide_True by done. by rewrite IH.
Qed.

Lemma postorder_build (e : string) (s : heap * astree) :
  build e = Ok s ->
  ∃ p, postfix (remove_spaces e) = Ok p ∧
       (" "%char ∉ list_ascii_of_string e -> postfix e = Ok p) ∧
       (length p <= depth_limit -> postorder s = Ok p) ∧
       (recursion_limit <= length p -> postorder s = Raise RecursionError).
Proof.
  unfold build. destruct (postfix (remove_spaces e)) as [p| | |] eqn:Hp; try done.
  rewrite bind_Ok. intros Hb. exists p. split; [done|]. split.
  - intros He. by rewrite <-(remove_spaces_id e He).
  - by apply postorder_build_postfix.
Qed.


(** C6. For "1+2" the converter gives ["1"; "2"; "+"], but [build] raises an
    attribute fault before the tree is complete, so there is no tree whose
    post-order could be compared with the postfix list.  For "1 2" a tree is
    built, but [build] takes the space out first and the converter does
    not: the post-order is ["12"] and the postfix list is ["1"; "2"].
    Whenever [build] does return a tree, the postfix list of the expression
    without its spaces (of the expression itself, when it has none) is the
    post-order of the tree if it is no longer than the recursion depth
    allowed to [travel]; when it is as long as the interpreter's recursion
    limit, [postorder] raises [RecursionError]. *)
Theorem build_faults_before_postorder :
  postfix "1+2" = Ok ["1"; "2"; "+"] ∧
  build "1+2" = Raise AttributeError ∧
  (s ← build "1+2"; postorder s) = Raise AttributeError ∧
  postfix "1 2" = Ok ["1"; "2"] ∧
  (s ← build "1 2"; postorder s) = Ok ["12"] ∧
  ∀ (e : string) (s : heap * astree),
    build e = Ok s ->
    ∃ p, postfix (remove_spaces e) = Ok p ∧
         (" "%char ∉ list_ascii_of_string e -> postfix e = Ok p) ∧
         (length p <= depth_limit -> postorder s = Ok p) ∧
         (recursion_limit <= length p -> postorder s = Raise RecursionError).
Proof.
  do 5 (split; [reflexivity|]).
  exact postorder_build.
Qed.

Lemma build_faults_before_postorder_witness :
  postfix "+*3" = Ok ["3"; "*"; "+"] ∧
  postorder ([node.mk "+" None None (Some 1);
              node.mk "*" None (Some 0) (Some 2);
              node.mk "3" None (Some 1) None],
             mk_astree (Some 0) (Some 1)) = Ok ["3"; "*"; "+"].
Proof.
  destruct (proj2 (proj2 (proj2 (proj2 (proj2 build_faults_before_postorder)))) "+*3"
              ([node.mk "+" None None (Some 1);
                node.mk "*" None (Some 0) (Some 2);
                node.mk "3" None (Some 1) None],
               mk_astree (Some 0) (Some 1)) eq_refl)
    as (p & Hp & Hsame & Hok & _).
  vm_compute in Hp. injection Hp as <-. split.
  - apply Hsame. cbn [list_ascii_of_string]. rewrite !not_elem_of_cons.
    repeat split; try done. apply not_elem_of_nil.
  - apply Hok. apply Nat.leb_le. reflexivity.
Defined.

(** ** The evaluator *)

Section EvaluateFacts.

Context {F : Type}.
Variable float : string -> result F.
Variable call2 : string -> value F -> value F -> result (value F).

Lemma evaluate_None (d : nat) (h : heap) :
  evaluate float call2 d h None = Ok (VInt 0).
Proof. destruct d; reflexivity. Qed.

Lemma evaluate_node (d : nat) (h : heap) (a : addr) (nd : node.t) :
  h !! a = Some nd ->
  evaluate float call2 (S d) h (Some a) = Raise AttributeError.
Proof. intros Hnd. cbn. rewrite Hnd. reflexivity. Qed.

(** C8. The evaluator returns 0 for a null node; for every node of the
    store, whatever its symbol (a numeric literal, [pi], [e]), the shipped
    evaluator raises an attribute fault at [expr.is_unary] and returns no
    number. *)
Theorem evaluate_null_zero_node_faults (h : heap) (t : astree) :
  (root t = None -> astree_evaluate float call2 (h, t) = Ok (VInt 0)) ∧
  (∀ a nd, root t = Some a -> h !! a = Some nd ->
     astree_evaluate float call2 (h, t) = Raise AttributeError).
Proof.
  unfold astree_evaluate; cbn [fst snd]. split.
  - intros ->. apply evaluate_None.
  - intros a nd -> Hnd. rewrite depth_limit_S. by apply evaluate_node with nd.
Qed.

(** No expression evaluates to a float: the pipeline gives 0 for an empty
    postfix list and a fault for every other input. *)
Lemma pipeline_outcome (e : string) :
  let r := s ← build e; astree_evaluate float call2 s in
  r = Ok (VInt 0) ∨ r = Raise AttributeError ∨ r = Raise IndexError.
Proof.
  cbn zeta. unfold build.
  destruct (postfix_outcome (remove_spaces e)) as [[p ->]| ->]; [|by right; right].
  rewrite bind_Ok. unfold build_postfix.
  destruct (add_all_outcome (reverse p) _ add_inv_init) as [([h t] & Hs & _)|Hf];
    [|right; left; by rewrite Hf].
  rewrite Hs, bind_Ok. apply add_all_spine in Hs as [-> Hroot].
  unfold astree_evaluate. cbn [fst snd]. rewrite Hroot.
  destruct (reverse p) as [|x syms]; [left; apply evaluate_None|].
  right; left. rewrite depth_limit_S. apply evaluate_node with (node.mk x None None
    (if 1 <? length (x :: syms) then Some 1 else None)).
  by rewrite spine_lookup.
Qed.

End EvaluateFacts.

Lemma evaluate_null_zero_node_faults_witness :
  astree_evaluate (F := unit) (fun _ => Ok ()) (fun _ _ _ => Raise TypeError)
    ([], astree_init) = Ok (VInt 0) ∧
  astree_evaluate (F := unit) (fun _ => Ok ()) (fun _ _ _ => Raise TypeError)
    ([node.new "3" None None None], mk_astree (Some 0) (Some 0))
  = Raise AttributeError.
Proof.
  split.
  - apply (evaluate_null_zero_node_faults (F := unit) (fun _ => Ok ())
             (fun _ _ _ => Raise TypeError) [] astree_init).
    reflexivity.
  - apply (evaluate_null_zero_node_faults (F := unit) (fun _ => Ok ())
             (fun _ _ _ => Raise TypeError)
             [node.new "3" None None None] (mk_astree (Some 0) (Some 0)))
      with (a := 0) (nd := node.new "3" None None None); reflexivity.
Defined.

(** ** The pipeline on the examples of the specification *)

(** C1. On the four examples of the specification the shipped [build] does
    not return a tree: attaching the second operand reads [expr.is_unary]
    and raises an attribute fault.  The tree of a single literal is built,
    but evaluating it raises the same fault.  For no expression at all does
    the pipeline return a float: it gives the integer 0 when the postfix
    list is empty, and a fault otherwise. *)
Theorem build_evaluate_examples_fault :
  postfix "3+4*2" = Ok ["3"; "4"; "2"; "*"; "+"] ∧
  build "3+4*2" = Raise AttributeError ∧
  build "(3+4)*2" = Raise AttributeError ∧
  build "2^3^2" = Raise AttributeError ∧
  build "10/2/5" = Raise AttributeError ∧
  ∀ (F : Type) (float : string -> result F)
    (call2 : string -> value F -> value F -> result (value F)),
    (s ← build "7"; astree_evaluate float call2 s) = Raise AttributeError ∧
    ∀ e : string,
      let r := s ← build e; astree_evaluate float call2 s in
      r = Ok (VInt 0) ∨ r = Raise AttributeError ∨ r = Raise IndexError.
Proof.
  do 5 (split; [reflexivity|]). intros F float call2.
  split; [reflexivity|]. apply pipeline_outcome.
Qed.

(** ** Breadth-first listing of an empty tree *)

(** C10. [bfs()] on a tree whose root is [None], as [astree()] leaves it,
    raises an attribute fault and returns no list: the root is put on the
    queue as it is and its [sym] is read. *)
Theorem bfs_empty_tree_faults :
  bfs ([], astree_init) = Raise AttributeError ∧
  ∀ (h : heap) (c : option addr), bfs (h, mk_astree None c) = Raise AttributeError.
Proof. split; reflexivity. Qed.

(** ** Clone *)





(** C7. In the clone of the tree built from "-1", the copy of the operand
    node keeps the parent reference of the node it was copied from: it
    points to the root of the source tree, not to the root of the clone. *)
Theorem clone_shares_parent_with_source :
  ∃ (h h' : heap) (t t' : astree) (r c k : addr) (nc nk : node.t),
    build "-1" = Ok (h, t) ∧
    copy (h, t) = Ok (h', t') ∧
    root t = Some r ∧ root t' = Some c ∧ c ≠ r ∧
    h' !! c = Some nc ∧ node.right nc = Some k ∧
    h' !! k = Some nk ∧ node.parent nk = Some r.
Proof.
  eexists _, _, _, _, 0, 2, 3, _, _.
  repeat split; try (vm_compute; reflexivity). discriminate.
Qed.


(** * Further properties *)

(** ** The operator tables *)

Lemma is_symbol_false (s : string) :
  is_symbol s = false ->
  String.eqb s "+" = false ∧ String.eqb s "-" = false ∧ String.eqb s "*" = false ∧
  String.eqb s "/" = false ∧ String.eqb s "^" = false.
Proof.
  unfold is_symbol, dict_mem. cbn [existsb basic_opeartors_mapper fst].
  intros H. repeat (apply orb_false_iff in H as [? H]). done.
Qed.

Lemma OPS_missing (s : string) : is_symbol s = false -> dict_get _OPS s = Raise KeyError.
Proof.
  intros (H1 & H2 & H3 & H4 & H5)%is_symbol_false.
  unfold _OPS. cbn [dict_get]. by rewrite H5, H3, H4, H1, H2.
Qed.

(** X1. [has_precedence] returns a truth value exactly when both of its
    arguments are operator symbols of [basic_opeartors_mapper]; for any
    other argument, such as "(", it raises the key fault of [_OPS]. *)
Theorem has_precedence_defined (a b : string) :
  if is_symbol a && is_symbol b
  then ∃ r, has_precedence a b = Ok r
  else has_precedence a b = Raise KeyError.
Proof.
  destruct (is_symbol b) eqn:Hb.
  - destruct (is_symbol a) eqn:Ha; cbn [andb].
    + by apply has_precedence_total.
    + apply OPS_missing in Ha. apply is_symbol_cases in Hb.
      unfold has_precedence. rewrite Ha.
      destruct Hb as [Hb|[Hb|[Hb|[Hb|Hb]]]]; rewrite Hb; reflexivity.
  - rewrite andb_false_r. apply OPS_missing in Hb.
    unfold has_precedence. by rewrite Hb.
Qed.

(** ** The tokens of the tokenizer *)

Lemma starts_with_take (p s : list ascii) :
  starts_with p s = true -> take (length p) s = p.
Proof.
  revert s. induction p as [|a p IH]; intros [|b s] H; cbn in *; try done.
  apply andb_prop in H as [Hab H]. apply Ascii.eqb_eq in Hab as ->.
  by rewrite IH.
Qed.

Lemma match_here_content (r : list (list ascii)) (s : list ascii) (n : nat) :
  match_here r s = Some n -> ∃ p, p ∈ r ∧ n = length p ∧ take n s = p.
Proof.
  unfold match_here. destruct (find _ r) as [p|] eqn:Hf; [|done].
  intros [= <-]. apply find_some in Hf as [Hin Hp].
  exists p. split; [by apply list_elem_of_In|]. split; [done|].
  by apply starts_with_take.
Qed.

(** Every match of [finditer] is an occurrence of one of the alternatives. *)
Lemma finditer_content (r : list (list ascii)) (s : list ascii) (skip pos st en : nat) :
  (st, en) ∈ finditer r skip pos s ->
  pos <= st ∧ ∃ p, p ∈ r ∧ en = st + length p ∧ take (length p) (drop (st - pos) s) = p.
Proof.
  revert skip pos. induction s as [|c s IH]; intros skip pos Hin.
  - by apply elem_of_nil in Hin.
  - cbn [finditer] in Hin.
    assert (Hrest : ∀ k, (st, en) ∈ finditer r k (S pos) s ->
              pos <= st ∧ ∃ p, p ∈ r ∧ en = st + length p ∧
                take (length p) (drop (st - pos) (c :: s)) = p).
    { intros k Hk. destruct (IH _ _ Hk) as (Hle & p & Hp & Hen & Htake).
      split; [lia|]. exists p. split; [done|]. split; [done|].
      replace (st - pos) with (S (st - S pos)) by lia. done. }
    destruct skip as [|k]; [|by apply Hrest with k].
    destruct (match_here r (c :: s)) as [n|] eqn:Hm; [|by apply Hrest with 0].
    apply elem_of_cons in Hin as [[= -> ->]|Hin]; [|by apply Hrest with (n - 1)].
    split; [lia|]. apply match_here_content in Hm as (p & Hp & -> & Htake).
    exists p. split; [done|]. split; [done|]. by rewrite Nat.sub_diag.
Qed.

Lemma chain_lookup_lt (lo hi : nat) (ms : list (nat * nat)) (j k s en s' en' : nat) :
  chain lo ms hi -> j < k ->
  ms !! j = Some (s, en) -> ms !! k = Some (s', en') -> en <= s'.
Proof.
  revert lo j k. induction ms as [|[s0 e0] ms IH]; intros lo j k; [by rewrite lookup_nil|].
  cbn [chain]. intros (?&?&?&Hc) Hjk. destruct j as [|j], k as [|k]; cbn; try lia.
  - intros [= <- <-] Hk. apply (chain_lookup _ _ _ _ _ _ Hc) in Hk. lia.
  - apply (IH _ _ _ Hc). lia.
Qed.

Lemma run_Forall (p : ascii -> bool) (s : list ascii) :
  Forall (fun x => p x = true) (run p s).
Proof.
  induction s as [|c s IH]; cbn; [constructor|].
  destruct (p c) eqn:Hc; by constructor.
Qed.

Lemma run_cons (p : ascii -> bool) (e : list ascii) (i : nat) (t : ascii) :
  e !! i = Some t -> p t = true ->
  run p (drop i e) = t :: run p (drop (S i) e).
Proof. intros Ht Hp. rewrite (drop_S _ _ _ Ht). cbn. by rewrite Hp. Qed.

Lemma getitem_Ok {A} (l : list A) (i : nat) (x : A) :
  getitem l i = Ok x -> l !! i = Some x.
Proof. unfold getitem. destruct (l !! i); [by intros [= ->]|done]. Qed.

Lemma function_name_key (p : list ascii) :
  p ∈ _func_regex -> dict_mem function_mapper (str p) = true.
Proof.
  unfold _func_regex. cbn [map function_mapper fst].
  intros H. repeat (apply elem_of_cons in H as [->|H]); try reflexivity.
  by apply elem_of_nil in H.
Qed.

Section TokenShapes.

Variable e : list ascii.
Let ms := finditer _func_regex 0 0 e.

Lemma ms_chain : chain 0 ms (length e).
Proof. apply (finditer_chain _ func_regex_nonempty e 0 0). Qed.

(** One turn of the loop keeps the tokens in shape. *)
Lemma tokenize_body_shaped (s s' : tstate) :
  tokenize_inv e ms s ∧ Forall Lexemes.shaped (tresult s) ->
  tokenize_body e ms.*1 ms.*2 s = Ok s' ->
  tokenize_inv e ms s' ∧ Forall Lexemes.shaped (tresult s').
Proof.
  intros [Hinv Hsh] Hb.
  assert (Hadd : ∀ t, Lexemes.shaped t -> Forall Lexemes.shaped (tresult s ++ [t])).
  { intros t Ht. apply Forall_app. split; [done|]. by constructor. }
  assert (index s < length e) as Hlt.
  { unfold tokenize_body in Hb. destruct (bool_decide (index s ∈ ms.*1)) eqn:Hin.
    - apply bool_decide_eq_true in Hin.
      apply list_elem_of_fmap in Hin as ([st en] & Hst & Hin). cbn in Hst. subst st.
      apply list_elem_of_lookup in Hin as [j Hj].
      destruct (chain_lookup _ _ _ _ _ _ ms_chain Hj). lia.
    - destruct (e !! index s) eqn:Ht; [by eapply lookup_lt_Some|].
      unfold getitem in Hb. by rewrite Ht in Hb. }
  destruct (tokenize_body_progress e ms ms_chain s Hinv Hlt) as (s2 & Hb2 & Hinv2 & _).
  rewrite Hb in Hb2. injection Hb2 as <-. split; [done|]. clear Hinv2.
  unfold tokenize_body in Hb. destruct (bool_decide (index s ∈ ms.*1)) eqn:Hin.
  - apply bool_decide_eq_true in Hin.
    apply list_elem_of_fmap in Hin as ([st en] & Hst & Hin). cbn in Hst. subst st.
    pose proof Hin as Hcontent. apply finditer_content in Hcontent as (_ & p & Hp & Hen & Htake).
    rewrite Nat.sub_0_r in Htake.
    apply list_elem_of_lookup in Hin as [j Hj].
    destruct Hinv as (_ & _ & Hm).
    assert (eindex s <= j) as Hej.
    { destruct (decide (eindex s <= j)); [done|].
      assert (index s < index s) by (apply (Hm j _ en); [lia|done]). lia. }
    destruct (getitem ms.*2 (eindex s)) as [ek| | |] eqn:Hk; try done.
    rewrite bind_Ok in Hb. injection Hb as <-. cbn [tresult].
    apply Hadd, Lexemes.shaped_func.
    apply getitem_Ok in Hk. rewrite list_lookup_fmap in Hk.
    destruct (ms !! eindex s) as [[sk ek']|] eqn:Hk'; [|done].
    cbn in Hk. injection Hk as ->.
    destruct (decide (eindex s = j)) as [Heq|Hne].
    + right. rewrite Heq, Hj in Hk'. injection Hk' as <- <-. subst en.
      unfold slice. replace (index s + length p - index s) with (length p) by lia.
      rewrite Htake. by apply function_name_key.
    + left. assert (ek <= index s)
        by (eapply chain_lookup_lt; [exact ms_chain| |exact Hk'|exact Hj]; lia).
      unfold slice. by replace (ek - index s) with 0 by lia.
  - destruct (getitem e (index s)) as [t| | |] eqn:Ht; try done.
    apply getitem_Ok in Ht. rewrite bind_Ok in Hb.
    destruct (is_digit t) eqn:Hd.
    { injection Hb as <-. cbn [tresult]. apply Hadd.
      rewrite (run_cons _ _ _ _ Ht Hd). apply Lexemes.shaped_num.
      rewrite <-(run_cons _ _ _ _ Ht Hd). apply run_Forall. }
    destruct (is_letter t) eqn:Hl.
    { injection Hb as <-. cbn [tresult]. apply Hadd.
      rewrite (run_cons _ _ _ _ Ht Hl). apply Lexemes.shaped_dummy.
      rewrite <-(run_cons _ _ _ _ Ht Hl). apply run_Forall. }
    revert Hb. destruct (Ascii.eqb_spec t "(") as [->|_];
      [intros [= <-]; apply Hadd; constructor|].
    destruct (Ascii.eqb_spec t ")") as [->|_];
      [intros [= <-]; apply Hadd; constructor|].
    destruct (is_symbol (str [t])) eqn:Hsym; intros [= <-]; [|done].
    apply Hadd. by constructor.
Qed.

End TokenShapes.

Lemma tokenize_shaped (e : string) :
  ∃ toks, tokenize e = Ok toks ∧ Forall Lexemes.shaped toks.
Proof.
  unfold tokenize, _match_regex.
  set (cs := list_ascii_of_string e). set (ms := finditer _func_regex 0 0 cs).
  destruct (tokenize_loop_total cs ms (ms_chain cs)
              (fun s => tokenize_inv cs ms s ∧ Forall Lexemes.shaped (tresult s))
              (tokenize_fuel cs ms.*1) (mk_tstate 0 0 []))
    as (st' & Hst' & _ & Hsh).
  - apply tokenize_body_shaped.
  - split; [|constructor]. unfold tokenize_inv; cbn. split; [lia|split; [lia|]]. intros; lia.
  - unfold tokenize_inv; cbn. split; [lia|split; [lia|]]. intros; lia.
  - unfold tokenize_measure, tokenize_fuel; cbn [index eindex].
    rewrite length_fmap. lia.
  - by exists (tresult st').
Qed.

(** X2. Every token that [tokenize] returns has exactly one kind: a Number
    holding a non-empty run of digits, an Identifier holding a non-empty run
    of letters, a Function token holding a key of [function_mapper] or the
    empty string, a parenthesis token holding its parenthesis, or an
    Operator token holding a key of [basic_opeartors_mapper]. *)
Theorem tokenize_token_shapes (e : string) :
  ∃ toks, tokenize e = Ok toks ∧ Forall Lexemes.shaped toks.
Proof. apply tokenize_shaped. Qed.

(** What every turn of the loop of [tokenize] preserves holds of the state
    in which the loop ends, whatever the step budget. *)
Lemma tokenize_loop_inv (P : tstate -> Prop) (fuel : nat) (e : list ascii)
  (starts ends : list nat) (st : tstate) (toks : list token.t) :
  (∀ s s', P s -> tokenize_body e starts ends s = Ok s' -> P s') ->
  P st ->
  tokenize_loop fuel e starts ends st = Ok toks ->
  ∃ st', P st' ∧ toks = tresult st' ∧ length e <= index st'.
Proof.
  intros HP. revert st. induction fuel as [|fuel IH]; intros st Hst Hloop.
  - cbn [tokenize_loop] in Hloop. destruct (Nat.ltb_spec (index st) (length e)); [done|].
    injection Hloop as <-. by exists st.
  - cbn [tokenize_loop] in Hloop. destruct (Nat.ltb_spec (index st) (length e)).
    + destruct (tokenize_body e starts ends st) as [s'| | |] eqn:Hb; try done.
      rewrite bind_Ok in Hloop. apply (IH s'); [by apply (HP st)|done].
    + injection Hloop as <-. by exists st.
Qed.

Lemma run_take (p : ascii -> bool) (s : list ascii) :
  take (length (run p s)) s = run p s.
Proof.
  induction s as [|c s IH]; [done|]. cbn [run]. destruct (p c); [|done].
  cbn. by rewrite IH.
Qed.

Lemma chars_snoc (toks : list token.t) (t : token.t) :
  Lexemes.chars (toks ++ [t]) = Lexemes.chars toks ++ list_ascii_of_string (token.sym t).
Proof. unfold Lexemes.chars. rewrite flat_map_app. cbn. by rewrite app_nil_r. Qed.

Lemma filter_recognised_run (p : ascii -> bool) (s : list ascii) :
  (∀ c, p c = true -> Spec.unrecognised c = false) ->
  List.filter (fun c => negb (Spec.unrecognised c)) (run p s) = run p s.
Proof.
  intros Hp. induction s as [|c s IH]; [done|]. cbn [run].
  destruct (p c) eqn:Hc; [|done]. cbn. by rewrite (Hp c Hc), IH.
Qed.

(** X3. When no function name occurs in the text, the lexemes of the
    returned tokens, one after the other, are the text without the
    characters that the tokenizer has no rule for: nothing else is lost and
    nothing is added. *)
Theorem tokenize_lexemes (e : string) (toks : list token.t) :
  _match_regex _func_regex (list_ascii_of_string e) = ([], []) ->
  tokenize e = Ok toks ->
  Lexemes.chars toks
  = List.filter (fun c => negb (Spec.unrecognised c)) (list_ascii_of_string e).
Proof.
  unfold tokenize. intros ->. set (cs := list_ascii_of_string e). intros Hloop.
  apply (tokenize_loop_inv
           (fun s => Lexemes.chars (tresult s)
                     = List.filter (fun c => negb (Spec.unrecognised c))
                         (take (index s) cs))) in Hloop
    as (st' & Hst' & -> & Hend).
  - by rewrite Hst', take_ge.
  - intros s s' Hs Hb. unfold tokenize_body in Hb.
    rewrite bool_decide_eq_false_2 in Hb by apply not_elem_of_nil.
    destruct (getitem cs (index s)) as [t| | |] eqn:Ht; try done.
    apply getitem_Ok in Ht. rewrite bind_Ok in Hb.
    assert (Hrun : ∀ p, p t = true ->
              (∀ c, p c = true -> Spec.unrecognised c = false) ->
              List.filter (fun c => negb (Spec.unrecognised c))
                (take (index s + length (run p (drop (index s) cs)) - 1 + 1) cs)
              = Lexemes.chars (tresult s) ++ run p (drop (index s) cs)).
    { intros p Hp Hrec.
      pose proof (run_head p (drop (index s) cs) t) as Hge.
      rewrite lookup_drop, Nat.add_0_r in Hge. specialize (Hge Ht Hp).
      replace (index s + length (run p (drop (index s) cs)) - 1 + 1)
        with (index s + length (run p (drop (index s) cs))) by lia.
      rewrite <-take_take_drop, List.filter_app, <-Hs, run_take.
      by rewrite filter_recognised_run. }
    assert (Hone : List.filter (fun c => negb (Spec.unrecognised c))
                     (take (index s + 1) cs)
                   = Lexemes.chars (tresult s)
                     ++ (if Spec.unrecognised t then [] else [t])).
    { rewrite Nat.add_1_r, (take_S_r _ _ _ Ht), List.filter_app, <-Hs. cbn.
      by destruct (Spec.unrecognised t). }
    destruct (is_digit t) eqn:Hd.
    { injection Hb as <-. cbn [tresult index].
      rewrite chars_snoc. cbn [token.sym tok_num]. unfold str.
      rewrite list_ascii_of_string_of_list_ascii.
      rewrite Hrun; [done..|]. intros c Hc. unfold Spec.unrecognised. by rewrite Hc. }
    destruct (is_letter t) eqn:Hl.
    { injection Hb as <-. cbn [tresult index].
      rewrite chars_snoc. cbn [token.sym tok_dummy]. unfold str.
      rewrite list_ascii_of_string_of_list_ascii.
      rewrite Hrun; [done..|]. intros c Hc. unfold Spec.unrecognised.
      rewrite Hc. by rewrite orb_true_r. }
    assert (Hu : Spec.unrecognised t
                 = negb (Ascii.eqb t "(" || Ascii.eqb t ")" || is_symbol (str [t]))).
    { unfold Spec.unrecognised. by rewrite Hd, Hl. }
    rewrite Hu in Hone.
    destruct (Ascii.eqb t "(") eqn:Hlb.
    { injection Hb as <-. cbn [tresult index]. by rewrite chars_snoc, Hone. }
    destruct (Ascii.eqb t ")") eqn:Hrb.
    { injection Hb as <-. cbn [tresult index]. by rewrite chars_snoc, Hone. }
    destruct (is_symbol (str [t])) eqn:Hsym; injection Hb as <-; cbn [tresult index].
    + by rewrite chars_snoc, Hone.
    + by rewrite Hone, app_nil_r.
  - done.
Qed.

Lemma tokenize_lexemes_witness :
  Lexemes.chars [tok_num "1"; tok_oper "+"; tok_dummy "a"; tok_leftb "(";
                 tok_num "23"; tok_rightb ")"]
  = List.filter (fun c => negb (Spec.unrecognised c))
      (list_ascii_of_string "1,+ a(23)?").
Proof.
  apply (tokenize_lexemes "1,+ a(23)?"); reflexivity.
Defined.

(** ** The converter on the tokens of the tokenizer *)

Lemma lexeme_not_operator (c : ascii) (d : list ascii) :
  is_digit c = true ∨ is_letter c = true ->
  is_symbol (str (c :: d)) = false ∧ str (c :: d) ≠ "(" ∧ Output.is_operand (str (c :: d)) = true.
Proof.
  intros H. change (str (c :: d)) with (String c (str d)).
  assert (String c (str d) ≠ "(") as Hlb.
  { intros [= -> _]. vm_compute in H. by destruct H. }
  assert (is_symbol (String c (str d)) = false) as Hsym.
  { destruct (is_symbol (String c (str d))) eqn:E; [|done].
    apply is_symbol_cases in E.
    destruct E as [E|[E|[E|[E|E]]]]; injection E as -> _;
      vm_compute in H; by destruct H. }
  split; [done|]. split; [done|]. unfold Output.is_operand. rewrite Hsym. cbn [negb andb].
  destruct (String.eqb_spec "(" (String c (str d))) as [E|]; [by rewrite <-E in Hlb|done].
Qed.

Lemma shaped_tokenizer_token (t : token.t) : Lexemes.shaped t -> tokenizer_token t.
Proof. destruct 1; by constructor. Qed.

Lemma shaped_operand (t : token.t) :
  Lexemes.shaped t -> Lexemes.operand t = true ->
  Output.is_operand (token.sym t) = true ∧ token.sym t ≠ "(".
Proof.
  destruct 1 as [c d Hd|c d Hd| | | |]; try done; intros _; cbn [token.sym tok_num tok_dummy];
    apply Forall_cons in Hd as [Hc _];
    destruct (lexeme_not_operator c d) as (_ & ? & ?); auto.
Qed.

Lemma stack_entry_not_operand (op : list string) :
  Forall stack_entry op -> List.filter Output.is_operand op = [].
Proof.
  induction 1 as [|s op [->|Hs] _ IH]; [done|..]; cbn [List.filter]; [done|].
  unfold Output.is_operand at 1. by rewrite Hs.
Qed.

Lemma symbols_not_leftb (l : list string) :
  Forall (fun x => is_symbol x = true) l ->
  Output.no_leftb l = l ∧ List.filter Output.is_operand l = [] ∧ "(" ∉ l.
Proof.
  induction 1 as [|s l Hs _ (IH1 & IH2 & IH3)].
  - repeat split; [done..|apply not_elem_of_nil].
  - assert ("(" ≠ s) as Hne by (intros <-; discriminate Hs).
    split; [|split].
    + unfold Output.no_leftb. cbn [List.filter].
      destruct (String.eqb_spec "(" s); [done|]. cbn [negb]. f_equal. exact IH1.
    + cbn [List.filter]. unfold Output.is_operand at 1. rewrite Hs. exact IH2.
    + by apply not_elem_of_cons.
Qed.

(** Popping moves the top entries of the stack to the end of the output,
    and the entries moved are operators. *)
Lemma pop_operators_moves (s : string) (op q op' q' : list string) :
  Forall stack_entry op -> pop_operators s op q = Ok (op', q') ->
  ∃ popped, q' = q ++ popped ∧ op = popped ++ op' ∧
            Forall (fun x => is_symbol x = true) popped.
Proof.
  revert q. induction op as [|top op IH]; intros q Hop Hpop.
  - injection Hpop as <- <-. exists []. by rewrite app_nil_r.
  - cbn [pop_operators] in Hpop. apply Forall_cons in Hop as [Htop Hop].
    destruct (String.eqb_spec top "(") as [->|Hne].
    { injection Hpop as <- <-. exists []. by rewrite app_nil_r. }
    destruct Htop as [->|Htop]; [done|].
    destruct (has_precedence top s) as [[]| | |]; try done; rewrite bind_Ok in Hpop.
    + destruct (IH _ Hop Hpop) as (popped & -> & -> & Hpopped).
      exists (top :: popped). rewrite <-app_assoc. split; [done|]. split; [done|].
      by constructor.
    + injection Hpop as <- <-. exists []. by rewrite app_nil_r.
Qed.

Lemma pop_to_leftb_moves (op q op' q' : list string) :
  Forall stack_entry op -> pop_to_leftb op q = (op', q') ->
  ∃ popped, q' = q ++ popped ∧ op = popped ++ op' ∧
            Forall (fun x => is_symbol x = true) popped ∧
            (op' = [] ∨ ∃ op'', op' = "(" :: op'').
Proof.
  revert q. induction op as [|top op IH]; intros q Hop Hpop.
  - injection Hpop as <- <-. exists []. rewrite app_nil_r. repeat split; auto.
  - cbn [pop_to_leftb] in Hpop. apply Forall_cons in Hop as [Htop Hop].
    destruct (String.eqb_spec top "(") as [->|Hne].
    { injection Hpop as <- <-. exists []. rewrite app_nil_r. repeat split; eauto. }
    destruct Htop as [->|Htop]; [done|].
    destruct (IH _ Hop Hpop) as (popped & -> & -> & Hpopped & Hop').
    exists (top :: popped). rewrite <-app_assoc. split; [done|]. split; [done|].
    split; [by constructor|done].
Qed.

Lemma no_leftb_app (l k : list string) :
  Output.no_leftb (l ++ k) = Output.no_leftb l ++ Output.no_leftb k.
Proof. apply List.filter_app. Qed.

Lemma operands_cons (t : token.t) (toks : list token.t) :
  Lexemes.operands (t :: toks)
  = (if Lexemes.operand t then [token.sym t] else []) ++ Lexemes.operands toks.
Proof. unfold Lexemes.operands. cbn [List.filter]. by destruct (Lexemes.operand t). Qed.

Lemma operands_operators_cons (t : token.t) (toks : list token.t) :
  Lexemes.operands_operators (t :: toks)
  = (if Lexemes.operand t || token.is_oper t then [token.sym t] else [])
    ++ Lexemes.operands_operators toks.
Proof.
  unfold Lexemes.operands_operators. cbn [List.filter].
  by destruct (Lexemes.operand t || token.is_oper t).
Qed.

Lemma postfix_step_operand (t : token.t) (q op : list string) :
  Lexemes.shaped t -> Lexemes.operand t = true ->
  postfix_step t (q, op) = Ok (q ++ [token.sym t], op).
Proof. destruct 1; try done; intros _; reflexivity. Qed.

(** One turn of the scan, on the output [q] and the stack [op]. *)
Lemma postfix_step_facts (t : token.t) (q op q' op' : list string) :
  Lexemes.shaped t -> Forall stack_entry op ->
  postfix_step t (q, op) = Ok (q', op') ->
  Forall stack_entry op' ∧
  Output.no_leftb (q' ++ op')
    ≡ₚ Output.no_leftb (q ++ op)
       ++ (if Lexemes.operand t || token.is_oper t then [token.sym t] else []) ∧
  List.filter Output.is_operand q'
    = List.filter Output.is_operand q
      ++ (if Lexemes.operand t then [token.sym t] else []) ∧
  ("(" ∉ q -> "(" ∉ q').
Proof.
  intros Ht Hop Hstep.
  pose proof (shaped_operand t Ht) as Hoperand.
  destruct (Lexemes.operand t) eqn:Hopd.
  { rewrite (postfix_step_operand t q op Ht Hopd) in Hstep. injection Hstep as <- <-.
    destruct Hoperand as [Ho Hne]; [done|]. cbn [orb].
    split; [done|]. split; [|split].
    + rewrite <-app_assoc, !no_leftb_app. cbn [app].
      unfold Output.no_leftb at 2. cbn [List.filter].
      destruct (String.eqb_spec "(" (token.sym t)) as [E|_]; [by rewrite <-E in Hne|].
      cbn [negb]. rewrite <-(app_assoc _ _ [_]).
      apply Permutation_app_head, Permutation_app_comm.
    + by rewrite List.filter_app; cbn [List.filter]; rewrite Ho.
    + intros Hq [?|H]%elem_of_app; [done|]. by apply list_elem_of_singleton in H. }
  clear Hoperand. cbn [orb].
  destruct Ht as [c d Hd|c d Hd|s Hs| | |s Hs]; [done|done|..].
  - injection Hstep as <- <-. cbn. by rewrite !app_nil_r.
  - injection Hstep as <- <-. cbn [Lexemes.operand token.is_num token.is_dummy
      token.is_oper tok_leftb orb token.sym].
    split; [constructor; [by left|done]|]. rewrite !app_nil_r. split; [|done].
    rewrite !no_leftb_app. by cbn.
  - unfold postfix_step in Hstep. cbn [token.is_num token.is_dummy token.is_leftb
      token.is_oper token.is_rightb tok_rightb orb] in Hstep.
    destruct (pop_to_leftb op q) as [op1 q1] eqn:Hpop.
    pose proof Hpop as Hpop'.
    apply pop_to_leftb_moves in Hpop' as (popped & -> & Hop1 & Hpopped & Hlb); [|done].
    destruct Hlb as [->|[op2 ->]]; [done|]. subst op.
    cbn [pop] in Hstep. rewrite bind_Ok in Hstep. injection Hstep as <- <-.
    apply Forall_app in Hop as [_ [Htop Hop2]%Forall_cons].
    destruct (symbols_not_leftb popped Hpopped) as (Hp1 & Hp2 & Hp3).
    cbn [Lexemes.operand token.is_num token.is_dummy token.is_oper tok_rightb orb].
    rewrite !app_nil_r. split; [done|]. split; [|split].
    + rewrite <-!app_assoc, !no_leftb_app. cbn [app].
      by change (Output.no_leftb ("(" :: op2)) with (Output.no_leftb op2).
    + by rewrite List.filter_app, Hp2, app_nil_r.
    + intros Hq [?|?]%elem_of_app; done.
  - unfold postfix_step in Hstep. cbn [token.is_num token.is_dummy token.is_leftb
      token.is_oper token.is_rightb token.sym tok_oper orb] in Hstep.
    assert (∃ popped op1, q' = q ++ popped ∧ op = popped ++ op1 ∧ op' = s :: op1 ∧
              Forall (fun x => is_symbol x = true) popped) as (popped & op1 & -> & -> & -> & Hpopped).
    { destruct (0 <? length op).
      - destruct (pop_operators s op q) as [[op1 q1]| | |] eqn:Hpop; try done.
        rewrite bind_Ok in Hstep. injection Hstep as <- <-.
        apply pop_operators_moves in Hpop as (popped & -> & -> & Hpopped); [|done].
        by exists popped, op1.
      - injection Hstep as <- <-. exists [], op. by rewrite app_nil_r. }
    apply Forall_app in Hop as [_ Hop1].
    destruct (symbols_not_leftb popped Hpopped) as (Hp1 & Hp2 & Hp3).
    cbn [Lexemes.operand token.is_num token.is_dummy token.is_oper tok_oper orb token.sym].
    rewrite app_nil_r. split; [constructor; [by right|done]|]. split; [|split].
    + rewrite <-!app_assoc, !no_leftb_app.
      assert (Output.no_leftb (s :: op1) = s :: Output.no_leftb op1) as ->.
      { unfold Output.no_leftb. cbn [List.filter].
        destruct (String.eqb_spec "(" s) as [<-|]; [discriminate Hs|done]. }
      rewrite <-!app_assoc. do 2 apply Permutation_app_head.
      change (s :: Output.no_leftb op1) with ([s] ++ Output.no_leftb op1).
      apply Permutation_app_comm.
    + by rewrite List.filter_app, Hp2, app_nil_r.
    + intros Hq [?|?]%elem_of_app; done.
Qed.

(** The scan, from the output [q] and the stack [op]. *)
Lemma postfix_scan_facts (toks : list token.t) (q op q' op' : list string) :
  Forall Lexemes.shaped toks -> Forall stack_entry op ->
  postfix_scan toks (q, op) = Ok (q', op') ->
  Forall stack_entry op' ∧
  Output.no_leftb (q' ++ op')
    ≡ₚ Output.no_leftb (q ++ op) ++ Lexemes.operands_operators toks ∧
  List.filter Output.is_operand q'
    = List.filter Output.is_operand q ++ Lexemes.operands toks ∧
  ("(" ∉ q -> "(" ∉ q').
Proof.
  revert q op. induction toks as [|t toks IH]; intros q op Htoks Hop Hscan.
  - injection Hscan as <- <-. unfold Lexemes.operands_operators, Lexemes.operands.
    cbn. by rewrite !app_nil_r.
  - apply Forall_cons in Htoks as [Ht Htoks]. cbn [postfix_scan] in Hscan.
    destruct (postfix_step t (q, op)) as [[q1 op1]| | |] eqn:Hstep; try done.
    rewrite bind_Ok in Hscan.
    destruct (postfix_step_facts _ _ _ _ _ Ht Hop Hstep) as (Hop1 & Hperm1 & Hopd1 & Hlb1).
    destruct (IH _ _ Htoks Hop1 Hscan) as (Hop' & Hperm & Hopd & Hlb).
    split; [done|]. split; [|split].
    + rewrite Hperm, Hperm1, operands_operators_cons. by rewrite <-app_assoc.
    + by rewrite Hopd, Hopd1, operands_cons, <-app_assoc.
    + auto.
Qed.

(** The scan stops at the index fault exactly when a parenthesis is closed
    that was not opened. *)
Lemma postfix_scan_decides (toks : list token.t) (q op : list string) :
  Forall tokenizer_token toks -> Forall stack_entry op ->
  (postfix_scan toks (q, op) = Raise IndexError ∧
   ∃ pre, pre `prefix_of` toks ∧ stack_opens op + Spec.opens pre < Spec.closes pre) ∨
  ((∃ q' op', postfix_scan toks (q, op) = Ok (q', op') ∧
      stack_opens op' + Spec.closes toks = stack_opens op + Spec.opens toks) ∧
   ∀ pre, pre `prefix_of` toks -> Spec.closes pre <= stack_opens op + Spec.opens pre).
Proof.
  intros Htoks Hop.
  assert (Hdec : (∃ pre, pre `prefix_of` toks ∧
                    stack_opens op + Spec.opens pre < Spec.closes pre) ∨
                 (∀ pre, pre `prefix_of` toks ->
                    Spec.closes pre <= stack_opens op + Spec.opens pre)).
  { clear q. revert op Hop. induction Htoks as [|t toks Ht Htoks IH]; intros op Hop.
    - right. intros pre ->%prefix_nil_inv. cbn. lia.
    - pose proof (postfix_step_spec t [] op Ht Hop) as Hstep.
      destruct (token.is_rightb t) eqn:Hrb.
      + assert (token.is_leftb t = false) as Hlb by (by destruct Ht).
        destruct (stack_opens op =? 0) eqn:H0; cbn [andb] in Hstep.
        * left. exists [t]. split; [apply prefix_cons, prefix_nil|].
          apply Nat.eqb_eq in H0. rewrite opens_cons, closes_cons, Hrb, Hlb. cbn. lia.
        * destruct Hstep as (q' & op' & _ & Hop' & Hcnt). rewrite Hlb in Hcnt.
          destruct (IH op' Hop') as [(pre & Hpre & Hex)|Hall].
          -- left. exists (t :: pre). split; [by apply prefix_cons|].
             rewrite opens_cons, closes_cons, Hrb, Hlb. lia.
          -- right. intros pre [->|(pre' & -> & Hp)]%prefix_cons_cases; [cbn; lia|].
             specialize (Hall pre' Hp). rewrite opens_cons, closes_cons, Hrb, Hlb. lia.
      + cbn [andb] in Hstep. destruct Hstep as (q' & op' & _ & Hop' & Hcnt).
        destruct (IH op' Hop') as [(pre & Hpre & Hex)|Hall].
        * left. exists (t :: pre). split; [by apply prefix_cons|].
          rewrite opens_cons, closes_cons, Hrb. lia.
        * right. intros pre [->|(pre' & -> & Hp)]%prefix_cons_cases; [cbn; lia|].
          specialize (Hall pre' Hp). rewrite opens_cons, closes_cons, Hrb. lia. }
  destruct Hdec as [Hex|Hall].
  - left. split; [by apply scan_excess_closing|done].
  - right. split; [by apply scan_no_excess_closing|done].
Qed.

(** X4. The converter raises the index fault exactly when, somewhere in the
    token sequence, a parenthesis is closed that was not opened; on every
    other input it returns a list.  It raises no other fault: the key fault
    of [has_precedence] cannot occur, because the operator stack is only
    compared when its top is an operator. *)
Theorem postfix_faults_iff_excess_closing (e : string) :
  ∃ toks, tokenize e = Ok toks ∧
    (postfix e = Raise IndexError ↔ Spec.excess_closing toks) ∧
    ((∃ q, postfix e = Ok q) ↔ ¬ Spec.excess_closing toks).
Proof.
  destruct (tokenize_tokens e) as (toks & Htok & Hwf). exists toks.
  split; [done|]. unfold postfix, postfix_tokens, Spec.excess_closing.
  rewrite Htok, bind_Ok.
  destruct (postfix_scan_decides toks [] [] Hwf) as [[-> Hex]|[(q & op & -> & _) Hall]];
    [constructor| |].
  - cbn in Hex. split; [done|]. split; [by intros [? ?]|]. intros []. done.
  - rewrite bind_Ok. cbn in Hall. split; [split; [done|]|split; [|by eexists]].
    + intros (pre & Hpre & Hlt). specialize (Hall pre Hpre). lia.
    + intros _ (pre & Hpre & Hlt). specialize (Hall pre Hpre). lia.
Qed.

(** X5. Whenever the converter returns a list, that list without its "("
    entries is a rearrangement of the lexemes of the Number, Identifier and
    Operator tokens: no operand or operator is lost, doubled or invented
    (Function tokens and matched parentheses leave no trace). *)
Theorem postfix_rearranges_lexemes (e : string) (toks : list token.t) (q : list string) :
  tokenize e = Ok toks -> postfix e = Ok q ->
  Output.no_leftb q ≡ₚ Lexemes.operands_operators toks.
Proof.
  intros Htok Hq. destruct (tokenize_shaped e) as (toks' & Htok' & Hsh).
  rewrite Htok in Htok'. injection Htok' as <-.
  unfold postfix, postfix_tokens in Hq. rewrite Htok, bind_Ok in Hq.
  destruct (postfix_scan toks ([], [])) as [[q1 op1]| | |] eqn:Hscan; try done.
  rewrite bind_Ok in Hq. injection Hq as <-.
  by destruct (postfix_scan_facts _ _ _ _ _ Hsh (Forall_nil_2 _) Hscan) as (_ & Hperm & _).
Qed.

Lemma postfix_rearranges_lexemes_witness :
  Output.no_leftb ["3"; "4"; "2"; "*"; "+"]
  ≡ₚ Lexemes.operands_operators
       [tok_num "3"; tok_oper "+"; tok_num "4"; tok_oper "*"; tok_num "2"].
Proof. apply (postfix_rearranges_lexemes "3+4*2"); reflexivity. Defined.

(** X6. Whenever the converter returns a list, the operands in it (the
    symbols that are neither operators nor "(") are the lexemes of the
    Number and Identifier tokens in their original order. *)
Theorem postfix_keeps_operand_order (e : string) (toks : list token.t) (q : list string) :
  tokenize e = Ok toks -> postfix e = Ok q ->
  List.filter Output.is_operand q = Lexemes.operands toks.
Proof.
  intros Htok Hq. destruct (tokenize_shaped e) as (toks' & Htok' & Hsh).
  rewrite Htok in Htok'. injection Htok' as <-.
  unfold postfix, postfix_tokens in Hq. rewrite Htok, bind_Ok in Hq.
  destruct (postfix_scan toks ([], [])) as [[q1 op1]| | |] eqn:Hscan; try done.
  rewrite bind_Ok in Hq. injection Hq as <-.
  destruct (postfix_scan_facts _ _ _ _ _ Hsh (Forall_nil_2 _) Hscan) as (Hop & _ & Hopd & _).
  by rewrite List.filter_app, Hopd, (stack_entry_not_operand _ Hop), app_nil_r.
Qed.

Lemma postfix_keeps_operand_order_witness :
  List.filter Output.is_operand ["a"; "b"; "2"; "^"; "*"; "c"; "-"]
  = Lexemes.operands
      [tok_dummy "a"; tok_oper "*"; tok_dummy "b"; tok_oper "^"; tok_num "2";
       tok_oper "-"; tok_dummy "c"].
Proof. apply (postfix_keeps_operand_order "a*b^2-c"); reflexivity. Defined.

Lemma stack_opens_zero (op : list string) : stack_opens op = 0 -> "(" ∉ op.
Proof.
  induction op as [|s op IH]; [intros _; apply not_elem_of_nil|].
  rewrite stack_opens_cons. destruct (String.eqb_spec "(" s) as [<-|Hne]; [lia|].
  intros H. apply not_elem_of_cons. split; [done|]. apply IH. lia.
Qed.

Lemma no_leftb_id (l : list string) : "(" ∉ l -> Output.no_leftb l = l.
Proof.
  induction l as [|s l IH]; [done|]. intros [Hne Hl]%not_elem_of_cons.
  unfold Output.no_leftb. cbn [List.filter].
  destruct (String.eqb_spec "(" s); [done|]. cbn [negb]. f_equal. by apply IH.
Qed.

(** X7. When the parentheses of the token sequence are matched, the
    converter returns a list that holds no parenthesis and is a
    rearrangement of the operand and operator lexemes. *)
Theorem postfix_balanced (e : string) (toks : list token.t) :
  tokenize e = Ok toks -> Lexemes.balanced toks ->
  ∃ q, postfix e = Ok q ∧ ("(" ∉ q) ∧ (q ≡ₚ Lexemes.operands_operators toks).
Proof.
  intros Htok [Hpre Hbal]. destruct (tokenize_shaped e) as (toks' & Htok' & Hsh).
  rewrite Htok in Htok'. injection Htok' as <-.
  assert (Forall tokenizer_token toks) as Hwf
    by (eapply Forall_impl; [exact Hsh|apply shaped_tokenizer_token]).
  destruct (scan_no_excess_closing toks [] [] Hwf) as (q & op & Hscan & Hcnt);
    [constructor|intros pre Hp; specialize (Hpre pre Hp); change (stack_opens []) with 0; lia|].
  unfold postfix, postfix_tokens. rewrite Htok, bind_Ok, Hscan, bind_Ok.
  destruct (postfix_scan_facts _ _ _ _ _ Hsh (Forall_nil_2 _) Hscan) as (_ & Hperm & _ & Hlb).
  assert ("(" ∉ q ++ op) as Hno.
  { intros [?|?]%elem_of_app; [by apply Hlb; [apply not_elem_of_nil|]|].
    by apply (stack_opens_zero op); [cbn in Hcnt; lia|]. }
  eexists. split; [reflexivity|]. split; [done|].
  by rewrite <-(no_leftb_id _ Hno).
Qed.

Lemma postfix_balanced_witness :
  ∃ q, postfix "(3+4)*2" = Ok q ∧ ("(" ∉ q) ∧
       (q ≡ₚ Lexemes.operands_operators
               [tok_leftb "("; tok_num "3"; tok_oper "+"; tok_num "4"; tok_rightb ")";
                tok_oper "*"; tok_num "2"]).
Proof.
  apply (postfix_balanced "(3+4)*2"); [reflexivity|]. split.
  - intros pre Hp.
    assert (Hlen : length pre <= 7) by (apply prefix_length in Hp; exact Hp).
    destruct Hp as [k Hk].
    do 8 (destruct pre as [|? pre];
            [cbn in Hk; simplify_eq; cbn; lia|]).
    cbn in Hlen. lia.
  - reflexivity.
Defined.

(** ** Precedence and parentheses in the converter *)

Lemma symbol_not_leftb (o : string) : is_symbol o = true -> String.eqb o "(" = false.
Proof. intros H. destruct (String.eqb_spec o "(") as [->|]; [discriminate H|done]. Qed.

Lemma postfix_step_operand_token (t : token.t) (q op : list string) :
  Lexemes.operand_token t -> postfix_step t (q, op) = Ok (q ++ [token.sym t], op).
Proof. intros [->| ->]; reflexivity. Qed.

Lemma postfix_step_oper_empty (o : string) (q : list string) :
  postfix_step (tok_oper o) (q, []) = Ok (q, [o]).
Proof. reflexivity. Qed.

Lemma postfix_step_oper_cons (o top : string) (q op : list string) :
  postfix_step (tok_oper o) (q, top :: op)
  = pop_operators o (top :: op) q ≫= λ '(op', q'), mret (q', o :: op').
Proof. reflexivity. Qed.

Lemma postfix_step_rightb (q op : list string) :
  postfix_step (tok_rightb ")") (q, op)
  = let '(op', q') := pop_to_leftb op q in '(_, op'') ← pop op'; mret (q', op'').
Proof. reflexivity. Qed.

Lemma postfix_step_leftb (q op : list string) :
  postfix_step (tok_leftb "(") (q, op) = Ok (q, "(" :: op).
Proof. reflexivity. Qed.

(** X8. For the token sequence operand, operator [o1], operand, operator
    [o2], operand, the converter puts [o1] before the third operand exactly
    when [has_precedence o1 o2] holds, which groups the expression to the
    left, and after [o2] otherwise, which groups it to the right. *)
Theorem postfix_two_operators (x y z : token.t) (o1 o2 : string) :
  Lexemes.operand_token x -> Lexemes.operand_token y -> Lexemes.operand_token z ->
  is_symbol o1 = true -> is_symbol o2 = true ->
  ∃ b, has_precedence o1 o2 = Ok b ∧
       postfix_tokens [x; tok_oper o1; y; tok_oper o2; z]
       = Ok (if b : bool
             then [token.sym x; token.sym y; o1; token.sym z; o2]
             else [token.sym x; token.sym y; token.sym z; o2; o1]).
Proof.
  intros Hx Hy Hz H1 H2. destruct (has_precedence_total o1 o2 H1 H2) as [b Hb].
  exists b. split; [done|]. unfold postfix_tokens. cbn [postfix_scan].
  rewrite (postfix_step_operand_token x _ _ Hx), bind_Ok, postfix_step_oper_empty, bind_Ok.
  rewrite (postfix_step_operand_token y _ _ Hy), bind_Ok.
  rewrite postfix_step_oper_cons. cbn [pop_operators].
  rewrite (symbol_not_leftb o1 H1), Hb, bind_Ok.
  destruct b; cbn [pop_operators]; rewrite ?bind_Ok;
    rewrite (postfix_step_operand_token z _ _ Hz), ?bind_Ok; reflexivity.
Qed.

Lemma postfix_two_operators_witness :
  ∃ b, has_precedence "^" "^" = Ok b ∧
       postfix_tokens [tok_num "2"; tok_oper "^"; tok_num "3"; tok_oper "^"; tok_num "2"]
       = Ok (if b : bool then ["2"; "3"; "^"; "2"; "^"] else ["2"; "3"; "2"; "^"; "^"]).
Proof.
  apply (postfix_two_operators (tok_num "2") (tok_num "3") (tok_num "2") "^" "^");
    first [by left | reflexivity].
Defined.

(** X9. Parentheses override the precedence test: in operand [o1] ( operand
    [o2] operand ) the operator [o2] always comes out first, and in
    ( operand [o1] operand ) [o2] operand the operator [o1] does, whatever
    the two operators are. *)
Theorem postfix_parentheses_group (x y z : token.t) (o1 o2 : string) :
  Lexemes.operand_token x -> Lexemes.operand_token y -> Lexemes.operand_token z ->
  is_symbol o1 = true -> is_symbol o2 = true ->
  postfix_tokens [x; tok_oper o1; tok_leftb "("; y; tok_oper o2; z; tok_rightb ")"]
  = Ok [token.sym x; token.sym y; token.sym z; o2; o1] ∧
  postfix_tokens [tok_leftb "("; x; tok_oper o1; y; tok_rightb ")"; tok_oper o2; z]
  = Ok [token.sym x; token.sym y; o1; token.sym z; o2].
Proof.
  intros Hx Hy Hz H1 H2. unfold postfix_tokens. cbn [postfix_scan]. split.
  - rewrite (postfix_step_operand_token x _ _ Hx), bind_Ok, postfix_step_oper_empty, bind_Ok.
    rewrite postfix_step_leftb, bind_Ok.
    rewrite (postfix_step_operand_token y _ _ Hy), bind_Ok.
    rewrite postfix_step_oper_cons.
    change (pop_operators o2 ("(" :: [o1]) (([] ++ [token.sym x]) ++ [token.sym y]))
      with (Ok ("(" :: [o1], ([] ++ [token.sym x]) ++ [token.sym y])).
    rewrite ?bind_Ok.
    rewrite (postfix_step_operand_token z _ _ Hz), ?bind_Ok.
    rewrite postfix_step_rightb. cbn [pop_to_leftb].
    rewrite (symbol_not_leftb o2 H2), String.eqb_refl.
    cbn [pop]. rewrite ?bind_Ok. reflexivity.
  - rewrite postfix_step_leftb, bind_Ok.
    rewrite (postfix_step_operand_token x _ _ Hx), bind_Ok.
    rewrite postfix_step_oper_cons.
    change (pop_operators o1 ["("] ([] ++ [token.sym x]))
      with (Ok (["("], [] ++ [token.sym x])).
    rewrite ?bind_Ok.
    rewrite (postfix_step_operand_token y _ _ Hy), bind_Ok.
    rewrite postfix_step_rightb. cbn [pop_to_leftb].
    rewrite (symbol_not_leftb o1 H1), String.eqb_refl.
    cbn [pop]. rewrite ?bind_Ok.
    rewrite postfix_step_oper_empty, bind_Ok.
    rewrite (postfix_step_operand_token z _ _ Hz), ?bind_Ok. reflexivity.
Qed.

Lemma postfix_parentheses_group_witness :
  postfix_tokens [tok_num "1"; tok_oper "*"; tok_leftb "("; tok_num "2"; tok_oper "+";
                  tok_num "3"; tok_rightb ")"]
  = Ok ["1"; "2"; "3"; "+"; "*"] ∧
  postfix_tokens [tok_leftb "("; tok_num "1"; tok_oper "*"; tok_num "2"; tok_rightb ")";
                  tok_oper "+"; tok_num "3"]
  = Ok ["1"; "2"; "*"; "3"; "+"].
Proof.
  apply (postfix_parentheses_group (tok_num "1") (tok_num "2") (tok_num "3") "*" "+");
    first [by left | reflexivity].
Defined.

(** ** Trees in the store *)

Lemma tree_in_functional (lo : nat) (h : heap) (r : option nat) (T1 T2 : shape) :
  tree_in lo h r T1 -> tree_in lo h r T2 -> T1 = T2.
Proof.
  intros H1. revert T2. induction H1 as [|a n L R Ha Hn HL IHL HR IHR]; intros T2 H2.
  - by inversion H2.
  - inversion H2 as [|a' n' L' R' Ha' Hn' HL' HR']; subst.
    rewrite Hn in Hn'. injection Hn' as <-.
    by rewrite (IHL _ HL'), (IHR _ HR').
Qed.

Lemma descends_snoc (h : heap) (a b : nat) (r : option nat) :
  Paths.descends h a (Some b) -> Paths.child h b r -> Paths.descends h a r.
Proof.
  intros Hd Hc. remember (Some b) as rb eqn:Hrb. revert Hrb.
  induction Hd as [a r' Hch|a c r' Hch Hd IH]; intros ->.
  - by apply Paths.descends_step with b; [|apply Paths.descends_child].
  - apply Paths.descends_step with c; [done|]. by apply IH.
Qed.

Lemma child_subtree (lo : nat) (h : heap) (a : nat) (r : option nat) (T : shape) :
  tree_in lo h (Some a) T -> Paths.child h a r ->
  ∃ T', tree_in lo h r T' ∧ Shape.size T' < Shape.size T.
Proof.
  intros HT (n & Hn & Hr). inversion HT as [|a' n' L R Ha Hn' HL HR]; subst.
  rewrite Hn in Hn'. injection Hn' as <-.
  destruct Hr as [-> | ->]; [exists L|exists R]; (split; [done|cbn; lia]).
Qed.

Lemma descends_subtree (lo : nat) (h : heap) (a : nat) (r : option nat) (T : shape) :
  tree_in lo h (Some a) T -> Paths.descends h a r ->
  ∃ T', tree_in lo h r T' ∧ Shape.size T' < Shape.size T.
Proof.
  intros HT Hd. revert T HT. induction Hd as [a r Hch|a b r Hch Hd IH]; intros T HT.
  - by apply child_subtree with a.
  - destruct (child_subtree _ _ _ _ _ HT Hch) as (Tb & HTb & Hlt).
    destruct (IH _ HTb) as (T' & HT' & Hlt'). exists T'. split; [done|lia].
Qed.

(** A tree of the store has no node below itself. *)
Lemma tree_in_acyclic (lo : nat) (h : heap) (a : nat) (T : shape) :
  tree_in lo h (Some a) T -> ¬ Paths.descends h a (Some a).
Proof.
  intros HT Hd. destruct (descends_subtree _ _ _ _ _ HT Hd) as (T' & HT' & Hlt).
  rewrite (tree_in_functional _ _ _ _ _ HT' HT) in Hlt. lia.
Qed.

Lemma bounded_NoDup_length (l : list nat) (n : nat) :
  NoDup l -> (∀ x, x ∈ l -> x < n) -> length l <= n.
Proof.
  intros Hnd Hlt. transitivity (length (seq 0 n)); [|by rewrite length_seq].
  apply submseteq_length.
  apply NoDup_submseteq; [done|]. intros x Hx. apply elem_of_seq. specialize (Hlt x Hx). lia.
Qed.

Lemma tree_in_height_seen (lo : nat) (h : heap) (r : option nat) (T : shape)
  (seen : list nat) :
  tree_in lo h r T -> NoDup seen ->
  (∀ x, x ∈ seen -> Paths.descends h x r) ->
  (∀ x, x ∈ seen -> x < length h) ->
  height T + length seen <= length h.
Proof.
  intros HT. revert seen. induction HT as [|a n L R Ha Hn HL IHL HR IHR];
    intros seen Hnd Hdesc Hlt.
  - cbn. by apply bounded_NoDup_length.
  - assert (a ∉ seen) as Hnotin.
    { intros Hin. apply (tree_in_acyclic lo h a (Node (node.sym n) L R)).
      - by apply tree_Some.
      - by apply Hdesc. }
    assert (a < length h) by eauto using lookup_lt_Some.
    assert (Hkid : ∀ r, r = node.left n ∨ r = node.right n ->
              ∀ x, x ∈ a :: seen -> Paths.descends h x r).
    { intros r Hr x [->|Hx]%elem_of_cons.
      - apply Paths.descends_child. by exists n.
      - apply descends_snoc with a; [by apply Hdesc|]. by exists n. }
    assert (Hlt' : ∀ x, x ∈ a :: seen -> x < length h).
    { intros x [->|Hx]%elem_of_cons; [done|by apply Hlt]. }
    assert (NoDup (a :: seen)) as Hnd' by by constructor.
    specialize (IHL (a :: seen) Hnd' (Hkid _ (or_introl eq_refl)) Hlt').
    specialize (IHR (a :: seen) Hnd' (Hkid _ (or_intror eq_refl)) Hlt').
    cbn [height length] in *. lia.
Qed.

(** The height of a tree of the store is at most the number of objects in
    the store: a path from the root down meets no node twice. *)
Lemma tree_in_height (lo : nat) (h : heap) (r : option nat) (T : shape) :
  tree_in lo h r T -> height T <= length h.
Proof.
  intros HT.
  pose proof (tree_in_height_seen lo h r T [] HT (NoDup_nil_2)) as H.
  cbn in H. rewrite Nat.add_0_r in H. apply H; intros x Hx; by apply elem_of_nil in Hx.
Qed.

Lemma travel_postorder_tree (d lo : nat) (h : heap) (r : option nat) (T : shape)
  (li : list string) :
  tree_in lo h r T -> height T <= d ->
  travel_postorder d h r li = Ok (li ++ Shape.post T).
Proof.
  intros HT. revert d li. induction HT as [|a n L R Ha Hn HL IHL HR IHR]; intros d li Hd.
  - destruct d; cbn; by rewrite app_nil_r.
  - cbn [height] in Hd. destruct d as [|d]; [lia|].
    cbn [travel_postorder is_None]. rewrite (load_Some _ _ _ Hn), bind_Ok.
    rewrite IHL, bind_Ok by lia. rewrite IHR, bind_Ok by lia.
    cbn [Shape.post]. by rewrite <-!app_assoc.
Qed.

Lemma travel_inorder_tree (d lo : nat) (h : heap) (r : option nat) (T : shape)
  (li : list string) :
  tree_in lo h r T -> height T <= d ->
  travel_inorder d h r li = Ok (li ++ Shape.ino T).
Proof.
  intros HT. revert d li. induction HT as [|a n L R Ha Hn HL IHL HR IHR]; intros d li Hd.
  - destruct d; cbn; by rewrite app_nil_r.
  - cbn [height] in Hd. destruct d as [|d]; [lia|].
    cbn [travel_inorder is_None]. rewrite (load_Some _ _ _ Hn), bind_Ok.
    rewrite IHL, bind_Ok by lia. rewrite IHR by lia.
    cbn [Shape.ino]. by rewrite <-!app_assoc.
Qed.

Lemma travel_preorder_tree (d lo : nat) (h : heap) (r : option nat) (T : shape)
  (li : list string) :
  tree_in lo h r T -> height T <= d ->
  travel_preorder d h r li = Ok (li ++ Shape.pre T).
Proof.
  intros HT. revert d li. induction HT as [|a n L R Ha Hn HL IHL HR IHR]; intros d li Hd.
  - destruct d; cbn; by rewrite app_nil_r.
  - cbn [height] in Hd. destruct d as [|d]; [lia|].
    cbn [travel_preorder is_None]. rewrite (load_Some _ _ _ Hn), bind_Ok.
    rewrite IHL, bind_Ok by lia. rewrite IHR by lia.
    cbn [Shape.pre]. by rewrite <-!app_assoc.
Qed.

Lemma max_depth_tree (d lo : nat) (h : heap) (r : option nat) (T : shape) :
  tree_in lo h r T -> height T <= d -> _max_depth d h r = Ok (height T).
Proof.
  intros HT. revert d. induction HT as [|a n L R Ha Hn HL IHL HR IHR]; intros d Hd.
  - by destruct d.
  - cbn [height] in Hd. destruct d as [|d]; [lia|].
    cbn [_max_depth is_None]. rewrite (load_Some _ _ _ Hn), bind_Ok.
    rewrite IHL, bind_Ok by lia. rewrite IHR, bind_Ok by lia.
    cbn [height]. by rewrite Nat.add_1_r.
Qed.

(** A traversal that meets a node deeper than the recursion allows raises
    [RecursionError]. *)
Lemma travel_postorder_deep (d lo : nat) (h : heap) (r : option nat) (T : shape)
  (li : list string) :
  tree_in lo h r T -> d < height T ->
  travel_postorder d h r li = Raise RecursionError.
Proof.
  intros HT. revert d li. induction HT as [|a n L R Ha Hn HL IHL HR IHR]; intros d li Hd.
  - cbn in Hd. lia.
  - cbn [height] in Hd. destruct d as [|d]; [reflexivity|].
    cbn [travel_postorder is_None]. rewrite (load_Some _ _ _ Hn), bind_Ok.
    destruct (le_lt_dec (height L) d) as [HLd|HLd].
    + rewrite (travel_postorder_tree _ _ _ _ _ _ HL HLd), bind_Ok.
      by rewrite IHR by lia.
    + by rewrite IHL by lia.
Qed.

Lemma travel_inorder_deep (d lo : nat) (h : heap) (r : option nat) (T : shape)
  (li : list string) :
  tree_in lo h r T -> d < height T ->
  travel_inorder d h r li = Raise RecursionError.
Proof.
  intros HT. revert d li. induction HT as [|a n L R Ha Hn HL IHL HR IHR]; intros d li Hd.
  - cbn in Hd. lia.
  - cbn [height] in Hd. destruct d as [|d]; [reflexivity|].
    cbn [travel_inorder is_None]. rewrite (load_Some _ _ _ Hn), bind_Ok.
    destruct (le_lt_dec (height L) d) as [HLd|HLd].
    + rewrite (travel_inorder_tree _ _ _ _ _ _ HL HLd), bind_Ok.
      by rewrite IHR by lia.
    + by rewrite IHL by lia.
Qed.

Lemma travel_preorder_deep (d lo : nat) (h : heap) (r : option nat) (T : shape)
  (li : list string) :
  tree_in lo h r T -> d < height T ->
  travel_preorder d h r li = Raise RecursionError.
Proof.
  intros HT. revert d li. induction HT as [|a n L R Ha Hn HL IHL HR IHR]; intros d li Hd.
  - cbn in Hd. lia.
  - cbn [height] in Hd. destruct d as [|d]; [reflexivity|].
    cbn [travel_preorder is_None]. rewrite (load_Some _ _ _ Hn), bind_Ok.
    destruct (le_lt_dec (height L) d) as [HLd|HLd].
    + rewrite (travel_preorder_tree _ _ _ _ _ _ HL HLd), bind_Ok.
      by rewrite IHR by lia.
    + by rewrite IHL by lia.
Qed.

Lemma max_depth_deep (d lo : nat) (h : heap) (r : option nat) (T : shape) :
  tree_in lo h r T -> d < height T -> _max_depth d h r = Raise RecursionError.
Proof.
  intros HT. revert d. induction HT as [|a n L R Ha Hn HL IHL HR IHR]; intros d Hd.
  - cbn in Hd. lia.
  - cbn [height] in Hd. destruct d as [|d]; [reflexivity|].
    cbn [_max_depth is_None]. rewrite (load_Some _ _ _ Hn), bind_Ok.
    destruct (le_lt_dec (height L) d) as [HLd|HLd].
    + rewrite (max_depth_tree _ _ _ _ _ HL HLd), bind_Ok.
      by rewrite IHR by lia.
    + by rewrite IHL by lia.
Qed.

(** ** Levels *)

Lemma zip_levels_nil_r {A} (xs : list (list A)) : Shape.zip_levels xs [] = xs.
Proof. by destruct xs. Qed.

Lemma zip_levels_assoc {A} (xs ys zs : list (list A)) :
  Shape.zip_levels (Shape.zip_levels xs ys) zs
  = Shape.zip_levels xs (Shape.zip_levels ys zs).
Proof.
  revert ys zs. induction xs as [|x xs IH]; intros [|y ys] [|z zs]; cbn; try done.
  by rewrite IH, <-app_assoc.
Qed.

Lemma zip_levels_length {A} (xs ys : list (list A)) :
  length (Shape.zip_levels xs ys) = Nat.max (length xs) (length ys).
Proof.
  revert ys. induction xs as [|x xs IH]; intros [|y ys]; cbn; try done.
  by rewrite IH.
Qed.

Lemma levels_length (T : shape) : length (Shape.levels T) = height T.
Proof.
  induction T as [|x l IHl r IHr]; [done|]. cbn. by rewrite zip_levels_length, IHl, IHr.
Qed.


Lemma levels_of_sym (lo : nat) (h : heap) (r : option nat) (T : shape) :
  tree_in lo h r T -> Paths.levels_of (fun _ nd => node.sym nd) h r (Shape.levels T).
Proof. induction 1; cbn; by econstructor. Qed.


(** The walk lays the levels of the tree over the lists from [level] on. *)
Lemma level_walk_spec {A} (item : nat -> node.t -> A) (d : nat) (h : heap)
  (r : option nat) (ls : list (list A)) (P D : list (list A)) :
  Paths.levels_of item h r ls -> length ls <= d ->
  level_walk item d h r (length P) (P ++ D) = Ok (P ++ Shape.zip_levels D ls).
Proof.
  intros Hls. revert d P D. induction Hls as [|a n ll lr Hn Hll IHl Hlr IHr]; intros d P D Hd.
  - destruct d; cbn; by rewrite zip_levels_nil_r.
  - cbn [length] in Hd. rewrite zip_levels_length in Hd.
    destruct d as [|d]; [lia|]. cbn [level_walk].
    set (hd := match D with [] => [] | l :: _ => l end).
    set (tl := match D with [] => [] | _ :: D' => D' end).
    assert ((if length (P ++ D) <=? length P then (P ++ D) ++ [[]] else P ++ D)
            = P ++ hd :: tl) as ->.
    { rewrite length_app. destruct D as [|l D']; cbn [length].
      - rewrite Nat.add_0_r, Nat.leb_refl. by rewrite app_nil_r.
      - destruct (Nat.leb_spec (length P + S (length D')) (length P)); [lia|done]. }
    unfold getitem. rewrite list_lookup_middle by done. rewrite bind_Ok.
    rewrite (load_Some _ _ _ Hn), bind_Ok.
    rewrite (insert_app_r_alt P _ (length P)) by lia. rewrite Nat.sub_diag.
    cbn [insert list_insert].
    set (P' := P ++ [hd ++ [item a n]]).
    replace (length P + 1) with (length P')
      by (unfold P'; rewrite length_app; cbn; lia).
    replace (P ++ (hd ++ [item a n]) :: tl) with (P' ++ tl)
      by (unfold P'; by rewrite <-app_assoc).
    rewrite IHl, bind_Ok by lia. rewrite IHr by lia.
    unfold P'. rewrite <-app_assoc, zip_levels_assoc. f_equal.
    subst hd tl. destruct D as [|l D']; [done|]. cbn. done.
Qed.

(** The walk raises [RecursionError] when the tree has more levels than the
    recursion allows. *)
Lemma level_walk_deep {A} (item : nat -> node.t -> A) (d : nat) (h : heap)
  (r : option nat) (ls : list (list A)) (P D : list (list A)) :
  Paths.levels_of item h r ls -> d < length ls ->
  level_walk item d h r (length P) (P ++ D) = Raise RecursionError.
Proof.
  intros Hls. revert d P D. induction Hls as [|a n ll lr Hn Hll IHl Hlr IHr]; intros d P D Hd.
  - cbn in Hd. lia.
  - cbn [length] in Hd. rewrite zip_levels_length in Hd.
    destruct d as [|d]; [reflexivity|]. cbn [level_walk].
    set (hd := match D with [] => [] | l :: _ => l end).
    set (tl := match D with [] => [] | _ :: D' => D' end).
    assert ((if length (P ++ D) <=? length P then (P ++ D) ++ [[]] else P ++ D)
            = P ++ hd :: tl) as ->.
    { rewrite length_app. destruct D as [|l D']; cbn [length].
      - rewrite Nat.add_0_r, Nat.leb_refl. by rewrite app_nil_r.
      - destruct (Nat.leb_spec (length P + S (length D')) (length P)); [lia|done]. }
    unfold getitem. rewrite list_lookup_middle by done. rewrite bind_Ok.
    rewrite (load_Some _ _ _ Hn), bind_Ok.
    rewrite (insert_app_r_alt P _ (length P)) by lia. rewrite Nat.sub_diag.
    cbn [insert list_insert].
    set (P' := P ++ [hd ++ [item a n]]).
    replace (length P + 1) with (length P')
      by (unfold P'; rewrite length_app; cbn; lia).
    replace (P ++ (hd ++ [item a n]) :: tl) with (P' ++ tl)
      by (unfold P'; by rewrite <-app_assoc).
    destruct (le_lt_dec (length ll) d) as [Hld|Hld].
    + rewrite (level_walk_spec _ _ _ _ _ _ _ Hll Hld), bind_Ok.
      by rewrite IHr by lia.
    + by rewrite IHl by lia.
Qed.

(** ** Breadth-first listing *)

Lemma concat_zip_levels_shift {A} (X : list A) (xs ys : list (list A)) :
  concat (Shape.zip_levels (X :: xs) ys) = X ++ concat (Shape.zip_levels ys xs).
Proof.
  revert X xs. induction ys as [|Y ys IH]; intros X xs; [done|].
  cbn [Shape.zip_levels concat]. destruct xs as [|Z xs].
  - cbn. by rewrite <-app_assoc.
  - rewrite IH. cbn. by rewrite <-!app_assoc.
Qed.

Lemma forest_levels_cons (T : shape) (ts : list shape) :
  Shape.forest_levels (T :: ts)
  = Shape.zip_levels (Shape.levels T) (Shape.forest_levels ts).
Proof. reflexivity. Qed.

Lemma forest_levels_app (ts us : list shape) :
  Shape.forest_levels (ts ++ us)
  = Shape.zip_levels (Shape.forest_levels ts) (Shape.forest_levels us).
Proof.
  induction ts as [|T ts IH]; [done|].
  rewrite <-app_comm_cons, !forest_levels_cons, IH. by rewrite zip_levels_assoc.
Qed.

Lemma forest_size_app (ts us : list shape) :
  Shape.forest_size (ts ++ us) = Shape.forest_size ts + Shape.forest_size us.
Proof. induction ts as [|T ts IH]; cbn; [done|]. rewrite IH. lia. Qed.

(** The loop of [bfs] on a queue of trees lists them level by level. *)
Lemma bfs_loop_forest (lo : nat) (h : heap) (fuel : nat) (q : list (option nat))
  (ts : list shape) (s : list string) :
  Forall2 (fun r T => tree_in lo h r T ∧ r ≠ None) q ts ->
  Shape.forest_size ts <= fuel ->
  bfs_loop fuel h q s = Ok (s ++ concat (Shape.forest_levels ts)).
Proof.
  revert q ts s. induction fuel as [|fuel IH]; intros q ts s Hq Hfuel.
  - destruct Hq as [|r T q ts [HT Hr] Hq].
    + cbn. by rewrite app_nil_r.
    + destruct HT; [done|]. cbn in Hfuel. lia.
  - destruct Hq as [|r T q ts [HT Hr] Hq].
    + cbn. by rewrite app_nil_r.
    + destruct HT as [|a n L R Ha Hn HL HR]; [done|].
      cbn [bfs_loop]. rewrite (load_Some _ _ _ Hn), bind_Ok.
      set (kids := (if is_None (node.left n) then [] else [L])
                   ++ (if is_None (node.right n) then [] else [R])).
      rewrite (IH _ (ts ++ kids)).
      * rewrite <-app_assoc. f_equal. rewrite forest_levels_cons. cbn [Shape.levels].
        rewrite concat_zip_levels_shift. cbn [app]. f_equal. f_equal.
        rewrite forest_levels_app. f_equal.
        unfold kids. inversion HL; inversion HR; subst; cbn;
          by rewrite ?zip_levels_nil_r.
      * unfold kids.
        destruct (node.left n) eqn:El, (node.right n) eqn:Er; cbn [is_None];
          rewrite ?app_nil_r, <-?app_assoc;
          repeat (apply Forall2_app; [|repeat constructor]); try done.
      * rewrite forest_size_app. cbn [Shape.forest_size Shape.size] in Hfuel.
        assert (Shape.forest_size kids <= Shape.size L + Shape.size R); [|lia].
        unfold kids. destruct (is_None _), (is_None _); cbn; lia.
Qed.

(** ** The queries on a tree of the store *)

Section TreeQueries.

Variables (h : heap) (t : astree) (T : shape).
Hypothesis tree : tree_in (length h) h (root t) T.

Lemma tree_traversals :
  height T <= depth_limit ->
  preorder (h, t) = Ok (Shape.pre T) ∧
  inorder (h, t) = Ok (Shape.ino T) ∧
  postorder (h, t) = Ok (Shape.post T).
Proof.
  intros Hd. unfold preorder, inorder, postorder. cbn [fst snd]. split; [|split].
  - by rewrite (travel_preorder_tree _ _ _ _ _ [] tree Hd).
  - by rewrite (travel_inorder_tree _ _ _ _ _ [] tree Hd).
  - by rewrite (travel_postorder_tree _ _ _ _ _ [] tree Hd).
Qed.

Lemma tree_traversals_deep :
  recursion_limit <= height T ->
  preorder (h, t) = Raise RecursionError ∧
  inorder (h, t) = Raise RecursionError ∧
  postorder (h, t) = Raise RecursionError.
Proof.
  intros Hd. pose proof depth_limit_below.
  assert (depth_limit < height T) as Hlt by lia.
  unfold preorder, inorder, postorder. cbn [fst snd]. split; [|split].
  - apply (travel_preorder_deep _ _ _ _ _ [] tree Hlt).
  - apply (travel_inorder_deep _ _ _ _ _ [] tree Hlt).
  - apply (travel_postorder_deep _ _ _ _ _ [] tree Hlt).
Qed.

Lemma tree_max_depth : height T <= depth_limit -> max_depth (h, t) = Ok (height T).
Proof.
  intros Hd. unfold max_depth. cbn [fst snd]. apply (max_depth_tree _ _ _ _ _ tree Hd).
Qed.

Lemma tree_max_depth_deep :
  recursion_limit <= height T -> max_depth (h, t) = Raise RecursionError.
Proof.
  intros Hd. pose proof depth_limit_below.
  unfold max_depth. cbn [fst snd]. apply (max_depth_deep _ _ _ _ _ tree). lia.
Qed.

Lemma tree_level_order :
  height T <= depth_limit -> level_order (h, t) = Ok (Shape.levels T).
Proof.
  intros Hd. unfold level_order, _level_traversal. cbn [fst snd].
  rewrite (level_walk_spec _ depth_limit h (root t) (Shape.levels T) [] []).
  - done.
  - by apply levels_of_sym with (length h).
  - by rewrite levels_length.
Qed.

Lemma tree_level_order_deep :
  recursion_limit <= height T -> level_order (h, t) = Raise RecursionError.
Proof.
  intros Hd. pose proof depth_limit_below.
  unfold level_order, _level_traversal. cbn [fst snd].
  apply (level_walk_deep _ depth_limit h (root t) (Shape.levels T) [] []).
  - by apply levels_of_sym with (length h).
  - rewrite levels_length. lia.
Qed.

Lemma tree_bfs :
  root t ≠ None -> Shape.size T <= length h ->
  bfs (h, t) = Ok (concat (Shape.levels T)).
Proof.
  intros Hr Hsize. unfold bfs. cbn [fst snd].
  rewrite (bfs_loop_forest (length h) h _ _ [T]).
  - cbn. by rewrite zip_levels_nil_r.
  - by repeat constructor.
  - cbn. lia.
Qed.

(** X10. On a tree of the store that is no deeper than the recursion depth
    allowed to [travel], [preorder], [inorder] and [postorder] return the
    symbols in root-left-right, left-root-right and left-right-root order.
    On a tree as deep as the interpreter's recursion limit each of them
    raises [RecursionError]. *)
Theorem traversals_of_tree :
  (height T <= depth_limit ->
   preorder (h, t) = Ok (Shape.pre T) ∧
   inorder (h, t) = Ok (Shape.ino T) ∧
   postorder (h, t) = Ok (Shape.post T)) ∧
  (recursion_limit <= height T ->
   preorder (h, t) = Raise RecursionError ∧
   inorder (h, t) = Raise RecursionError ∧
   postorder (h, t) = Raise RecursionError).
Proof. split; [exact tree_traversals|exact tree_traversals_deep]. Qed.

(** X11. On a tree of the store that is no deeper than the recursion depth
    allowed, [max_depth] returns the number of nodes on the longest path
    from the root down, 0 for the empty tree; this number is at most the
    number of objects in the store.  On a tree as deep as the interpreter's
    recursion limit [max_depth] raises [RecursionError]. *)
Theorem max_depth_of_tree :
  (height T <= depth_limit -> max_depth (h, t) = Ok (height T)) ∧
  height T <= length h ∧
  (root t = None -> max_depth (h, t) = Ok 0) ∧
  (recursion_limit <= height T -> max_depth (h, t) = Raise RecursionError).
Proof.
  split; [exact tree_max_depth|split; [|split]].
  - apply (tree_in_height _ _ _ _ tree).
  - intros Hr. unfold max_depth. cbn [fst snd]. rewrite Hr. by rewrite depth_limit_S.
  - exact tree_max_depth_deep.
Qed.

(** X12. On a tree of the store that is no deeper than the recursion depth
    allowed, [level_order] returns the symbols level by level, each level
    from left to right; the number of levels is the depth of the tree.  On
    a tree as deep as the interpreter's recursion limit [level_order]
    raises [RecursionError]. *)
Theorem level_order_of_tree :
  (height T <= depth_limit -> level_order (h, t) = Ok (Shape.levels T)) ∧
  length (Shape.levels T) = height T ∧
  (recursion_limit <= height T -> level_order (h, t) = Raise RecursionError).
Proof.
  split; [exact tree_level_order|split; [apply levels_length|exact tree_level_order_deep]].
Qed.

(** X13. On a non-empty tree of the store whose nodes are distinct objects
    (so that it has no more nodes than the store has objects), [bfs]
    returns the levels of [level_order] one after the other. *)
Theorem bfs_of_tree :
  root t ≠ None -> Shape.size T <= length h ->
  bfs (h, t) = Ok (concat (Shape.levels T)).
Proof. exact tree_bfs. Qed.

End TreeQueries.

(** The store of three nodes of a tree with both children, for the
    witnesses: "+" at 0 with the children "1" at 1 and "2" at 2. *)
Lemma tree_in_example :
  tree_in 3 [node.mk "+" (Some 1) None (Some 2);
             node.mk "1" None (Some 0) None;
             node.mk "2" None (Some 0) None]
    (Some 0) (Node "+" (Node "1" Leaf Leaf) (Node "2" Leaf Leaf)).
Proof.
  apply (tree_Some 3 _ 0 (node.mk "+" (Some 1) None (Some 2))); [lia|reflexivity|..].
  - apply (tree_Some 3 _ 1 (node.mk "1" None (Some 0) None));
      [lia|reflexivity|constructor..].
  - apply (tree_Some 3 _ 2 (node.mk "2" None (Some 0) None));
      [lia|reflexivity|constructor..].
Defined.

Lemma bfs_of_tree_witness :
  bfs ([node.mk "+" (Some 1) None (Some 2);
        node.mk "1" None (Some 0) None;
        node.mk "2" None (Some 0) None], mk_astree (Some 0) None)
  = Ok ["+"; "1"; "2"].
Proof.
  apply (bfs_of_tree
         [node.mk "+" (Some 1) None (Some 2);
          node.mk "1" None (Some 0) None;
          node.mk "2" None (Some 0) None]
         (mk_astree (Some 0) None) _ tree_in_example); [done|cbn; lia].
Defined.

(** ** The queries on the trees that [build] returns *)

Lemma tree_in_spine (syms : list string) (k i : nat) :
  i + k = length syms ->
  tree_in (length (spine syms)) (spine syms)
    (if i <? length syms then Some i else None) (Shape.right_chain (drop i syms)).
Proof.
  revert i. induction k as [|k IH]; intros i Hik.
  - destruct (Nat.ltb_spec i (length syms)); [lia|].
    rewrite drop_ge by lia. constructor.
  - destruct (Nat.ltb_spec i (length syms)); [|lia].
    destruct (syms !! i) as [x|] eqn:Hx; [|apply lookup_ge_None in Hx; lia].
    rewrite (drop_S _ _ _ Hx). cbn [Shape.right_chain].
    change x with (node.sym (node.mk x None (match i with 0 => None | S j => Some j end)
                     (if S i <? length syms then Some (S i) else None))).
    apply tree_Some.
    + by rewrite spine_length.
    + by rewrite spine_lookup, Hx.
    + constructor.
    + cbn [node.right]. apply IH. lia.
Qed.

Lemma right_chain_facts (syms : list string) :
  Shape.pre (Shape.right_chain syms) = syms ∧
  Shape.ino (Shape.right_chain syms) = syms ∧
  Shape.levels (Shape.right_chain syms) = (fun x => [x]) <$> syms ∧
  height (Shape.right_chain syms) = length syms ∧
  Shape.size (Shape.right_chain syms) = length syms.
Proof.
  induction syms as [|x syms (IH1 & IH2 & IH3 & IH4 & IH5)]; [done|].
  cbn. rewrite IH1, IH2, IH3, IH4, IH5. repeat split; done.
Qed.

Lemma concat_singletons {A} (l : list A) : concat ((fun x => [x]) <$> l) = l.
Proof. induction l as [|x l IH]; [done|]. cbn. by rewrite IH. Qed.

(** The chain of a thousand "+", the tree that [build] makes of them, for
    the witnesses. *)
Lemma tree_in_thousand :
  tree_in (length (spine (replicate 1000 "+"))) (spine (replicate 1000 "+")) (Some 0)
    (Shape.right_chain (replicate 1000 "+")).
Proof. exact (tree_in_spine (replicate 1000 "+") 1000 0 eq_refl). Qed.

Lemma thousand_deep : recursion_limit <= height (Shape.right_chain (replicate 1000 "+")).
Proof. apply Nat.leb_le. vm_compute. reflexivity. Qed.

Lemma traversals_of_tree_witness :
  let s := ([node.mk "+" (Some 1) None (Some 2);
             node.mk "1" None (Some 0) None;
             node.mk "2" None (Some 0) None], mk_astree (Some 0) None) in
  let deep := (spine (replicate 1000 "+"), mk_astree (Some 0) None) in
  (preorder s = Ok ["+"; "1"; "2"] ∧
   inorder s = Ok ["1"; "+"; "2"] ∧
   postorder s = Ok ["1"; "2"; "+"]) ∧
  (preorder deep = Raise RecursionError ∧
   inorder deep = Raise RecursionError ∧
   postorder deep = Raise RecursionError).
Proof.
  intros s deep. split.
  - apply (proj1 (traversals_of_tree
         [node.mk "+" (Some 1) None (Some 2);
          node.mk "1" None (Some 0) None;
          node.mk "2" None (Some 0) None]
         (mk_astree (Some 0) None) _ tree_in_example)).
    apply Nat.leb_le. reflexivity.
  - exact (proj2 (traversals_of_tree _ (mk_astree (Some 0) None) _ tree_in_thousand)
             thousand_deep).
Defined.

Lemma max_depth_of_tree_witness :
  let s := ([node.mk "+" (Some 1) None (Some 2);
             node.mk "1" None (Some 0) None;
             node.mk "2" None (Some 0) None], mk_astree (Some 0) None) in
  let deep := (spine (replicate 1000 "+"), mk_astree (Some 0) None) in
  max_depth s = Ok 2 ∧ max_depth deep = Raise RecursionError.
Proof.
  intros s deep. split.
  - apply (proj1 (max_depth_of_tree
         [node.mk "+" (Some 1) None (Some 2);
          node.mk "1" None (Some 0) None;
          node.mk "2" None (Some 0) None]
         (mk_astree (Some 0) None) _ tree_in_example)).
    apply Nat.leb_le. reflexivity.
  - exact (proj2 (proj2 (proj2
             (max_depth_of_tree _ (mk_astree (Some 0) None) _ tree_in_thousand)))
             thousand_deep).
Defined.

Lemma level_order_of_tree_witness :
  let s := ([node.mk "+" (Some 1) None (Some 2);
             node.mk "1" None (Some 0) None;
             node.mk "2" None (Some 0) None], mk_astree (Some 0) None) in
  let deep := (spine (replicate 1000 "+"), mk_astree (Some 0) None) in
  level_order s = Ok [["+"]; ["1"; "2"]] ∧ level_order deep = Raise RecursionError.
Proof.
  intros s deep. split.
  - apply (proj1 (level_order_of_tree
         [node.mk "+" (Some 1) None (Some 2);
          node.mk "1" None (Some 0) None;
          node.mk "2" None (Some 0) None]
         (mk_astree (Some 0) None) _ tree_in_example)).
    apply Nat.leb_le. reflexivity.
  - exact (proj2 (proj2
             (level_order_of_tree _ (mk_astree (Some 0) None) _ tree_in_thousand))
             thousand_deep).
Defined.

(** X14. In a tree that [build] returns for a postfix list [p], the root is
    the last symbol of [p] and every node hangs as the right child of the
    one before it.  So, when [p] is no longer than the recursion depth
    allowed, [preorder] and [inorder] both give [p] reversed (and not the
    prefix or infix form), [level_order] gives one symbol per level and
    [max_depth] gives the length of [p]; when [p] is as long as the
    interpreter's recursion limit, the four of them raise [RecursionError].
    [bfs], which loops and does not recurse, gives [p] reversed for every
    [p] that is not empty. *)
Theorem queries_of_built_tree (p : list string) (s : heap * astree) :
  build_postfix [] p = Ok s ->
  (length p <= depth_limit ->
   preorder s = Ok (reverse p) ∧
   inorder s = Ok (reverse p) ∧
   level_order s = Ok ((fun x => [x]) <$> reverse p) ∧
   max_depth s = Ok (length p)) ∧
  (p ≠ [] -> bfs s = Ok (reverse p)) ∧
  (recursion_limit <= length p ->
   preorder s = Raise RecursionError ∧
   inorder s = Raise RecursionError ∧
   level_order s = Raise RecursionError ∧
   max_depth s = Raise RecursionError).
Proof.
  destruct s as [h t]. unfold build_postfix. intros Hb.
  apply add_all_spine in Hb as [-> Hroot].
  set (syms := reverse p) in *.
  assert (tree_in (length (spine syms)) (spine syms) (root t) (Shape.right_chain syms)) as HT.
  { pose proof (tree_in_spine syms (length syms) 0 eq_refl) as H.
    rewrite drop_0 in H. rewrite Hroot. by destruct syms. }
  destruct (right_chain_facts syms) as (Hpre & Hino & Hlev & Hh & Hsz).
  assert (length syms = length p) as Hlen by apply length_reverse.
  split; [|split].
  - intros Hd. rewrite <-Hlen, <-Hh in Hd.
    destruct (tree_traversals _ _ _ HT Hd) as (-> & -> & _).
    rewrite (tree_max_depth _ _ _ HT Hd), (tree_level_order _ _ _ HT Hd).
    by rewrite Hpre, Hino, Hlev, Hh, Hlen.
  - intros Hp. rewrite (tree_bfs _ _ _ HT).
    + by rewrite Hlev, concat_singletons.
    + rewrite Hroot. destruct syms eqn:E; [|done].
      apply (f_equal reverse) in E. unfold syms in E. rewrite reverse_involutive in E. done.
    + by rewrite Hsz, spine_length.
  - intros Hd. rewrite <-Hlen, <-Hh in Hd.
    destruct (tree_traversals_deep _ _ _ HT Hd) as (-> & -> & _).
    by rewrite (tree_max_depth_deep _ _ _ HT Hd), (tree_level_order_deep _ _ _ HT Hd).
Qed.

(** The tree of a thousand "+", as [build] makes it. *)
Lemma build_postfix_thousand :
  build_postfix [] (replicate 1000 "+")
  = Ok (spine (replicate 1000 "+"), mk_astree (Some 0) (Some 999)).
Proof. vm_compute. reflexivity. Qed.

Lemma queries_of_built_tree_witness :
  let s := ([node.mk "+" None None (Some 1);
             node.mk "*" None (Some 0) (Some 2);
             node.mk "3" None (Some 1) None], mk_astree (Some 0) (Some 1)) in
  let deep := (spine (replicate 1000 "+"), mk_astree (Some 0) (Some 999)) in
  (preorder s = Ok ["+"; "*"; "3"] ∧
   inorder s = Ok ["+"; "*"; "3"] ∧
   level_order s = Ok [["+"]; ["*"]; ["3"]] ∧
   max_depth s = Ok 3) ∧
  bfs s = Ok ["+"; "*"; "3"] ∧
  (preorder deep = Raise RecursionError ∧
   inorder deep = Raise RecursionError ∧
   level_order deep = Raise RecursionError ∧
   max_depth deep = Raise RecursionError).
Proof.
  intros s deep.
  pose proof (queries_of_built_tree ["3"; "*"; "+"] s eq_refl) as (H1 & H2 & _).
  pose proof (queries_of_built_tree (replicate 1000 "+") deep build_postfix_thousand)
    as (_ & _ & H3).
  split; [|split].
  - apply H1. apply Nat.leb_le. reflexivity.
  - by apply H2.
  - apply H3. apply Nat.leb_le. vm_compute. reflexivity.
Defined.

(** ** When [build] returns a tree *)

(** A run of [add] over operators keeps the right child of the cursor free. *)
Lemma add_all_operators (ops : list string) (s : heap * astree) :
  add_inv s -> Spec.cursor_right_occupied s = false ->
  Forall (fun x => is_symbol x = true) ops ->
  ∃ s', add_all ops s = Ok s' ∧ add_inv s' ∧ Spec.cursor_right_occupied s' = false.
Proof.
  intros Hs Hfree Hops. revert s Hs Hfree.
  induction Hops as [|x ops Hx _ IH]; intros s Hs Hfree; [by exists s|].
  cbn [add_all]. pose proof (add_cases x s Hs) as Hadd. rewrite Hfree in Hadd.
  destruct Hadd as (s1 & -> & Hs1 & _ & Hocc). rewrite bind_Ok.
  apply IH; [done|]. rewrite Hocc, Hx. by rewrite andb_false_r.
Qed.

Lemma add_all_succeeds (x : string) (ops : list string) (z : list string) :
  Forall (fun x => is_symbol x = true) ops -> length z <= 1 ->
  ∃ s, add_all (x :: ops ++ z) ([], astree_init) = Ok s.
Proof.
  intros Hops Hz. cbn [add_all].
  pose proof (add_cases x _ add_inv_init) as Hadd.
  change (Spec.cursor_right_occupied ([], astree_init)) with false in Hadd.
  destruct Hadd as (s1 & -> & Hs1 & _ & Hocc). rewrite bind_Ok.
  cbn in Hocc. rewrite add_all_app.
  destruct (add_all_operators ops s1 Hs1 Hocc Hops) as (s2 & -> & Hs2 & Hfree).
  rewrite bind_Ok. destruct z as [|y [|]]; [by exists s2| |cbn in Hz; lia].
  cbn [add_all]. pose proof (add_cases y s2 Hs2) as Hadd. rewrite Hfree in Hadd.
  destruct Hadd as (s3 & -> & _). by exists s3.
Qed.

Lemma middle_snoc (a z : string) (mid : list string) :
  Lexemes.middle (a :: mid ++ [z]) = mid.
Proof. unfold Lexemes.middle. cbn [tail]. apply removelast_last. Qed.

(** X15. [build] turns a postfix list into a tree exactly when every symbol
    of the list other than its first and its last is an operator; on every
    other list it raises the attribute fault.  (The symbols are inserted
    from the last to the first, and only an operator moves the cursor.) *)
Theorem build_postfix_succeeds_iff (p : list string) :
  if forallb is_symbol (Lexemes.middle p)
  then ∃ s, build_postfix [] p = Ok s
  else build_postfix [] p = Raise AttributeError.
Proof.
  unfold build_postfix.
  destruct p as [|a p]; [exists ([], astree_init); reflexivity|].
  destruct p as [|z mid _] using rev_ind; [by eexists|].
  rewrite middle_snoc.
  rewrite reverse_cons, reverse_app, reverse_singleton. cbn [app].
  destruct (forallb is_symbol mid) eqn:Hmid.
  - apply add_all_succeeds; [|done].
    apply Forall_reverse, Forall_forall. intros x Hx.
    rewrite forallb_forall in Hmid. by apply Hmid, list_elem_of_In.
  - assert (∃ pre b post, mid = pre ++ b :: post ∧ is_symbol b = false)
      as (pre & b & post & -> & Hb).
    { clear -Hmid. induction mid as [|x mid IH]; [done|]. cbn [forallb] in Hmid.
      destruct (is_symbol x) eqn:Hx; cbn [andb] in Hmid.
      - destruct (IH Hmid) as (pre & b & post & -> & Hb). by exists (x :: pre), b, post.
      - by exists [], x, mid. }
    rewrite reverse_app, reverse_cons, <-!app_assoc. cbn [app].
    change (z :: reverse post ++ b :: reverse pre ++ [a])
      with ((z :: reverse post) ++ b :: reverse pre ++ [a]).
    destruct (reverse pre ++ [a]) as [|y rest] eqn:E; [by destruct (reverse pre)|].
    by apply add_all_operand_then_more.
Qed.

(** ** The copy of a tree *)






(** X17. The cursor of a copy is [None]: [add] on the copy of a non-empty
    tree raises an attribute fault for every symbol, so a copied tree
    cannot be extended. *)
Theorem add_on_copy_faults (s s' : heap * astree) (x : string) :
  copy s = Ok s' -> root s'.2 ≠ None -> add x s' = Raise AttributeError.
Proof.
  unfold copy. destruct (_clone _ _ _) as [[h' r]| | |]; try done.
  rewrite bind_Ok. intros [= <-]. cbn [snd root]. intros Hr.
  unfold add. destruct r as [r|]; [|done]. cbn [root cur is_None astree_init].
  rewrite expr_call_is_symbol, bind_Ok. cbn [truthy].
  by destruct (is_symbol x).
Qed.

Lemma add_on_copy_faults_witness :
  add "2" ([node.mk "-" None None (Some 1); node.mk "1" None (Some 0) None;
            node.mk "-" None None (Some 3); node.mk "1" None (Some 0) None],
           mk_astree (Some 2) None)
  = Raise AttributeError.
Proof.
  apply (add_on_copy_faults
           ([node.mk "-" None None (Some 1); node.mk "1" None (Some 0) None],
            mk_astree (Some 0) (Some 0))); [reflexivity|done].
Defined.

(** ** What [add] leaves alone *)

(** X18. In every state that [add] can reach from the empty tree, a
    successful [add] creates exactly one node, holding the new symbol and
    no children, keeps the root, and leaves every existing node as it was
    except for the right field of the node under the cursor, where the new
    node is attached. *)
Theorem add_frame (syms : list string) (s s' : heap * astree) (x : string) :
  add_all syms ([], astree_init) = Ok s -> add x s = Ok s' ->
  s'.1 !! length s.1 = Some (node.mk x None (cur s.2) None) ∧
  length s'.1 = S (length s.1) ∧
  (root s.2 ≠ None -> root s'.2 = root s.2) ∧
  ∀ a n, s.1 !! a = Some n ->
    if bool_decide (cur s.2 = Some a)
    then s'.1 !! a = Some (node.set_right (Some (length s.1)) n) ∧ node.right n = None
    else s'.1 !! a = Some n.
Proof.
  intros Hs Hadd.
  assert (add_inv s) as [Hl Hc].
  { destruct (add_all_outcome syms _ add_inv_init) as [(s0 & Hs0 & Hinv & _)|Hf];
      rewrite Hs in *; [by injection Hs0 as ->|discriminate Hf]. }
  destruct s as [h [r c]]. cbn [fst snd root cur] in *.
  destruct r as [r|], c as [c|]; try done.
  - destruct Hc as [n Hn].
    assert (c < length h) by eauto using lookup_lt_Some.
    destruct (node.right n) as [k|] eqn:Hr.
    { rewrite (add_occupied x h r c n Hn) in Hadd;
        [done|by rewrite Hr|by apply Hl with c]. }
    rewrite (add_free x h r c n Hn Hr) in Hadd. injection Hadd as <-. cbn [fst snd root].
    split; [|split; [|split; [by destruct (is_symbol x)|]]].
    + rewrite list_lookup_insert_ne by lia.
      by rewrite lookup_app_r, Nat.sub_diag by lia.
    + rewrite length_insert, length_app. cbn. lia.
    + intros a m Hm. case_bool_decide as Hca.
      * injection Hca as ->. rewrite Hn in Hm. injection Hm as <-.
        by rewrite list_lookup_insert_eq by (rewrite length_app; lia).
      * assert (a ≠ c) by congruence.
        rewrite list_lookup_insert_ne by done. by rewrite lookup_app_l by eauto using lookup_lt_Some.
  - rewrite add_root in Hadd. injection Hadd as <-. cbn [fst snd root].
    split; [|split; [|split; [done|]]].
    + by rewrite lookup_app_r, Nat.sub_diag by lia.
    + rewrite length_app. cbn. lia.
    + intros a m Hm. rewrite bool_decide_eq_false_2 by done.
      by rewrite lookup_app_l by eauto using lookup_lt_Some.
Qed.

Lemma add_frame_witness :
  let s := ([node.mk "+" None None None], mk_astree (Some 0) (Some 0)) in
  let s' := ([node.mk "+" None None (Some 1); node.mk "*" None (Some 0) None],
             mk_astree (Some 0) (Some 1)) in
  s'.1 !! length s.1 = Some (node.mk "*" None (cur s.2) None) ∧
  length s'.1 = S (length s.1) ∧
  (root s.2 ≠ None -> root s'.2 = root s.2) ∧
  ∀ a n, s.1 !! a = Some n ->
    if bool_decide (cur s.2 = Some a)
    then s'.1 !! a = Some (node.set_right (Some (length s.1)) n) ∧ node.right n = None
    else s'.1 !! a = Some n.
Proof. apply (add_frame ["+"] _ _ "*"); reflexivity. Defined.

(** ** The level of a node *)





